(** * country-boundaries: a shallow embedding of the raster index and its
    point-in-polygon test.

    Integers are [Z] with the Rust wrap-around written out; [usize] is [Z]
    too.  A Rust panic (integer overflow with overflow checks enabled, an
    index out of range) is [None] in the [option] monad of stdpp.  The
    flag [overflow_checks] says which Rust profile is modelled: [true] is
    the dev/test profile (arithmetic overflow panics), [false] the release
    profile (arithmetic overflow wraps).  [f64] values are modelled by the
    rationals [Q] (exact arithmetic); every concrete input used below is
    exactly representable and its intermediate results are computed
    exactly by IEEE arithmetic as well. *)

From Stdlib Require Import ZArith Lia QArith Qround Qfield Lqa Sorted.
From stdpp Require Import base list option gmap sets strings.

Open Scope Z_scope.

(** ** Machine integers *)

Definition wrap_signed (bits : Z) (z : Z) : Z :=
  let m := 2 ^ bits in
  let r := z mod m in
  if 2 ^ (bits - 1) <=? r then r - m else r.

Definition in_signed (bits : Z) (z : Z) : bool :=
  (- 2 ^ (bits - 1) <=? z) && (z <? 2 ^ (bits - 1)).

(** The result of a signed [bits]-bit operation whose exact result is [z]. *)
Definition signed_op (overflow_checks : bool) (bits : Z) (z : Z) : option Z :=
  if in_signed bits z then Some z
  else if overflow_checks then None else Some (wrap_signed bits z).

(** [a - b] on [usize]. *)
Definition usize_sub (overflow_checks : bool) (a b : Z) : option Z :=
  if b <=? a then Some (a - b)
  else if overflow_checks then None else Some (a - b + 2 ^ 64).

(** [v[i]] on a slice: out of range panics. *)
Definition index {A} (v : list A) (i : Z) : option A :=
  if 0 <=? i then v !! Z.to_nat i else None.

(** ** cell/point.rs and cell/multipolygon.rs *)

(** Modelled from the spec: [cell::point::Point] (cell/point.rs is not
    part of the sources), two unsigned 16-bit integers x and y. *)
Record Point := mkPoint { x : Z; y : Z }.

Definition u16_ok (z : Z) : Prop := 0 <= z <= 65535.
Definition point_ok (p : Point) : Prop := u16_ok (x p) /\ u16_ok (y p).

Record Multipolygon := mkMultipolygon {
  outer : list (list Point);
  inner : list (list Point)
}.

Section Profile.
Variable overflow_checks : bool.

Abbreviation i64 := (signed_op overflow_checks 64).
Abbreviation i32 := (signed_op overflow_checks 32).

(** [is_left]: every operand cast to [i64], every operation in [i64]. *)
Definition is_left (p0 p1 p : Point) : option Z :=
  a ← i64 (x p1 - x p0);
  b ← i64 (y p - y p0);
  c ← i64 (x p - x p0);
  d ← i64 (y p1 - y p0);
  ab ← i64 (a * b);
  cd ← i64 (c * d);
  i64 (ab - cd).

(** One iteration of the edge loop of [is_point_in_polygon], for the edge
    from [vi] to [vj]; [wn] is an [i32]. *)
Definition winding_step (p vi vj : Point) (wn : Z) : option Z :=
  if y vi <=? y p then
    if y p <? y vj then
      l ← is_left vi vj p;
      if 0 <? l then i32 (wn + 1) else Some wn
    else Some wn
  else
    if y vj <=? y p then
      l ← is_left vi vj p;
      if l <? 0 then i32 (wn - 1) else Some wn
    else Some wn.

(** [for j in 0 .. v.len() { ...; i = j; }] *)
Fixpoint winding_loop (p : Point) (v : list Point) (js : list Z) (i wn : Z)
    : option Z :=
  match js with
  | [] => Some wn
  | j :: js' =>
      vi ← index v i;
      vj ← index v j;
      wn' ← winding_step p vi vj wn;
      winding_loop p v js' j wn'
  end.

Definition range_usize (n : Z) : list Z :=
  map Z.of_nat (seq 0 (Z.to_nat n)).

Definition is_point_in_polygon (p : Point) (v : list Point) : option bool :=
  let len := Z.of_nat (length v) in
  i ← usize_sub overflow_checks len 1;
  wn ← winding_loop p v (range_usize len) i 0;
  Some (negb (wn =? 0)).

(** [Multipolygon::covers]; [insides] is an [i32].  [count_if inside d n]
    is [if inside { insides += d }]. *)
Definition count_if (inside : bool) (delta insides : Z) : option Z :=
  if inside then i32 (insides + delta) else Some insides.

Fixpoint count_outer (p : Point) (rs : list (list Point)) (insides : Z)
    : option Z :=
  match rs with
  | [] => Some insides
  | r :: rs' =>
      inside ← is_point_in_polygon p r;
      insides' ← count_if inside 1 insides;
      count_outer p rs' insides'
  end.

Fixpoint count_inner (p : Point) (rs : list (list Point)) (insides : Z)
    : option Z :=
  match rs with
  | [] => Some insides
  | r :: rs' =>
      inside ← is_point_in_polygon p r;
      insides' ← count_if inside (-1) insides;
      count_inner p rs' insides'
  end.

Definition covers (mp : Multipolygon) (p : Point) : option bool :=
  insides ← count_outer p (outer mp) 0;
  insides ← count_inner p (inner mp) insides;
  Some (0 <? insides).

End Profile.

(** ** cell.rs *)

(** Modelled from the spec: [cell::Cell] and its methods (cell.rs is not
    part of the sources; lib.rs only uses the fields [containing_ids] and
    [intersecting_areas] and the methods [is_in], [is_in_any], [get_ids]
    and [get_all_ids]).  A boundary entry is an [(id, Multipolygon)] pair,
    as in spec section 4.3. *)
Module Cell.

Record Cell := mkCell {
  containing_ids : list string;
  intersecting_areas : list (string * Multipolygon)
}.

Section Methods.
Variable overflow_checks : bool.

(** Modelled from the spec: [Cell::is_in] (spec 4.3). *)
Definition is_in (c : Cell) (p : Point) (id : string) : option bool :=
  if bool_decide (id ∈ containing_ids c) then Some true
  else match list_find (fun a => a.1 = id) (intersecting_areas c) with
       | Some (_, (_, mp)) => covers overflow_checks mp p
       | None => Some false
       end.

Fixpoint any_area_covers (p : Point) (ids : gset string)
    (areas : list (string * Multipolygon)) : option bool :=
  match areas with
  | [] => Some false
  | (id, mp) :: rest =>
      if bool_decide (id ∈ ids) then
        b ← covers overflow_checks mp p;
        if (b : bool) then Some true else any_area_covers p ids rest
      else any_area_covers p ids rest
  end.

(** Modelled from the spec: [Cell::is_in_any] (spec 4.3). *)
Definition is_in_any (c : Cell) (p : Point) (ids : gset string) : option bool :=
  if existsb (fun id => bool_decide (id ∈ ids)) (containing_ids c) then Some true
  else any_area_covers p ids (intersecting_areas c).

Fixpoint covering_ids (p : Point) (areas : list (string * Multipolygon))
    : option (list string) :=
  match areas with
  | [] => Some []
  | (id, mp) :: rest =>
      b ← covers overflow_checks mp p;
      rest' ← covering_ids p rest;
      Some (if (b : bool) then id :: rest' else rest')
  end.

(** Modelled from the spec: [Cell::get_ids] (spec 4.3). *)
Definition get_ids (c : Cell) (p : Point) : option (list string) :=
  ids ← covering_ids p (intersecting_areas c);
  Some (containing_ids c ++ ids).

End Methods.

(** Modelled from the spec: [Cell::get_all_ids] (spec 4.3). *)
Definition get_all_ids (c : Cell) : list string :=
  containing_ids c ++ map fst (intersecting_areas c).

End Cell.

Abbreviation Cell := Cell.Cell.

(** ** latlon.rs, bbox.rs (validated value types, not part of the core) *)

Record LatLon := mkLatLon { latitude : Q; longitude : Q }.

Record BoundingBox := mkBoundingBox {
  min_latitude : Q; min_longitude : Q; max_latitude : Q; max_longitude : Q
}.

(** ** lib.rs *)

Record CountryBoundaries := mkCountryBoundaries {
  raster : list Cell;
  raster_width : Z;
  geometry_sizes : gmap string Q
}.

(** [f64] helpers: [%] is the truncated remainder; [as usize] and [as u16]
    saturate. *)
Definition f64_trunc (q : Q) : Z := Z.quot (Qnum q) (Zpos (Qden q)).
Definition f64_rem (a b : Q) : Q := (a - b * inject_Z (f64_trunc (a / b)))%Q.
Definition Qltb (a b : Q) : bool := negb (Qle_bool b a).
Definition f64_to_usize (z : Z) : Z := Z.max 0 (Z.min z (2 ^ 64 - 1)).
Definition f64_to_u16 (z : Z) : Z := Z.max 0 (Z.min z 65535).
Definition saturating_sub (a b : Z) : Z := Z.max 0 (a - b).

Definition normalize (value start_at base : Q) : Q :=
  let value := f64_rem value base in
  if Qltb value start_at then (value + base)%Q
  else if Qle_bool (start_at + base) value then (value - base)%Q
  else value.

Section Index.
Variable overflow_checks : bool.
Variable cb : CountryBoundaries.

Definition raster_height : Q :=
  (inject_Z (Z.of_nat (length (raster cb))) / inject_Z (raster_width cb))%Q.

Definition cell (cx cy : Z) : option Cell :=
  index (raster cb) (cy * raster_width cb + cx).

Definition longitude_to_cell_x (lon : Q) : Z :=
  Z.min (saturating_sub (raster_width cb) 1)
    (f64_to_usize (Qfloor (inject_Z (raster_width cb) * (180 + lon) / 360)%Q)).

Definition latitude_to_cell_y (lat : Q) : Z :=
  saturating_sub (f64_to_usize (Qceiling (raster_height * (90 - lat) / 180)%Q)) 1.

Definition longitude_to_local_x (cx : Z) (lon : Q) : Z :=
  let w := inject_Z (raster_width cb) in
  let cell_longitude := (-180 + 360 * inject_Z cx / w)%Q in
  f64_to_u16 (Qfloor ((lon - cell_longitude) * 65535 * 360 / w)%Q).

Definition latitude_to_local_y (cy : Z) (lat : Q) : Z :=
  let h := raster_height in
  let cell_latitude := (90 - 180 * (inject_Z cy + 1) / h)%Q in
  f64_to_u16 (Qfloor ((lat - cell_latitude) * 65535 * 180 / h)%Q).

Definition cell_and_local_point (pos : LatLon) : option (Cell * Point) :=
  let normalized_longitude := normalize (longitude pos) (-180) 360 in
  let cx := longitude_to_cell_x normalized_longitude in
  let cy := latitude_to_cell_y (latitude pos) in
  c ← cell cx cy;
  Some (c, mkPoint (longitude_to_local_x cx normalized_longitude)
                   (latitude_to_local_y cy (latitude pos))).

Definition is_in (pos : LatLon) (id : string) : option bool :=
  '(c, p) ← cell_and_local_point pos;
  Cell.is_in overflow_checks c p id.

Definition is_in_any (pos : LatLon) (ids : gset string) : option bool :=
  '(c, p) ← cell_and_local_point pos;
  Cell.is_in_any overflow_checks c p ids.

(** [slice::sort_by] is a stable sort; a stable insertion sort computes the
    same (unique) result. *)
Fixpoint insert_by {A} (cmp : A -> A -> comparison) (a : A) (l : list A) : list A :=
  match l with
  | [] => [a]
  | b :: l' =>
      match cmp a b with
      | Lt => a :: b :: l'
      | _ => b :: insert_by cmp a l'
      end
  end.

Definition sort_by {A} (cmp : A -> A -> comparison) (l : list A) : list A :=
  foldl (fun acc a => insert_by cmp a acc) [] l.

Definition size_of (id : string) : Q :=
  match geometry_sizes cb !! id with Some size => size | None => 0%Q end.

Definition ids (pos : LatLon) : option (list string) :=
  '(c, p) ← cell_and_local_point pos;
  result ← Cell.get_ids overflow_checks c p;
  Some (sort_by (fun a b => Qcompare (size_of a) (size_of b)) result).

(** The iterator returned by [cells]: the values captured by the closure
    and its two mutable counters. *)
Record CellsIter := mkCellsIter {
  it_min_x : Z; it_min_y : Z; it_steps_x : Z; it_steps_y : Z;
  x_step : Z; y_step : Z
}.

(** One call of the [from_fn] closure.  The outer [option] is a panic
    ([% 0] or [self.raster[..]] out of range); the item [Some k] is the
    reference [&self.raster[k]]. *)
Definition cells_next (it : CellsIter) : option (option Z) * CellsIter :=
  let w := raster_width cb in
  let result :=
    if (x_step it <=? it_steps_x it) && (y_step it <=? it_steps_y it) then
      if w =? 0 then None
      else
        let cx := (it_min_x it + x_step it) mod w in
        let cy := it_min_y it + y_step it in
        let k := cy * w + cx in
        if k <? Z.of_nat (length (raster cb)) then Some (Some k) else None
    else Some None in
  let it' :=
    if y_step it <? it_steps_y it then
      mkCellsIter (it_min_x it) (it_min_y it) (it_steps_x it) (it_steps_y it)
        (x_step it) (y_step it + 1)
    else
      mkCellsIter (it_min_x it) (it_min_y it) (it_steps_x it) (it_steps_y it)
        (x_step it + 1) 0 in
  (result, it').

Definition cells (bounds : BoundingBox) : option CellsIter :=
  let normalized_min_longitude := normalize (min_longitude bounds) (-180) 360 in
  let normalized_max_longitude := normalize (max_longitude bounds) (-180) 360 in
  let min_x := longitude_to_cell_x normalized_min_longitude in
  let max_y := latitude_to_cell_y (min_latitude bounds) in
  let max_x := longitude_to_cell_x normalized_max_longitude in
  let min_y := latitude_to_cell_y (max_latitude bounds) in
  steps_y ← usize_sub overflow_checks max_y min_y;
  let steps_x :=
    if max_x <? min_x then raster_width cb - min_x + max_x else max_x - min_x in
  Some (mkCellsIter min_x min_y steps_x steps_y 0 0).

(** A [for] loop over the iterator: it stops at the first [None]. *)
Fixpoint collect (fuel : nat) (it : CellsIter) : option (list Z) :=
  match fuel with
  | O => Some []
  | S fuel' =>
      match cells_next it with
      | (None, _) => None
      | (Some None, _) => Some []
      | (Some (Some k), it') => ks ← collect fuel' it'; Some (k :: ks)
      end
  end.

(** The number of calls after which the loop has seen [None]. *)
Definition cells_fuel (it : CellsIter) : nat :=
  S (Z.to_nat ((it_steps_x it + 1) * (it_steps_y it + 1))).

(** The raster positions the loop [for cell in self.cells(bounds)] visits. *)
Definition visited_positions (bounds : BoundingBox) : option (list Z) :=
  it ← cells bounds;
  collect (cells_fuel it) it.

Definition visited_cells (bounds : BoundingBox) : option (list Cell) :=
  ks ← visited_positions bounds;
  mapM (index (raster cb)) ks.

Fixpoint containing_loop (first_cell : bool) (acc : gset string) (cs : list Cell)
    : gset string :=
  match cs with
  | [] => acc
  | c :: cs' =>
      if first_cell then
        containing_loop false (acc ∪ list_to_set (Cell.containing_ids c)) cs'
      else
        containing_loop false
          (filter (fun id => id ∈ Cell.containing_ids c) acc) cs'
  end.

Definition containing_ids (bounds : BoundingBox) : option (gset string) :=
  cs ← visited_cells bounds;
  Some (containing_loop true ∅ cs).

Definition intersecting_ids (bounds : BoundingBox) : option (gset string) :=
  cs ← visited_cells bounds;
  Some (foldl (fun acc c => acc ∪ list_to_set (Cell.get_all_ids c)) ∅ cs).

End Index.

(** ** Derived notions used in the statements *)

(** The signed sum of spec section 4.2: [+1] per outer ring containing the
    point, [-1] per inner ring containing it (a panicking ring test panics). *)
Definition count_true (bs : list bool) : Z := Z.of_nat (length (List.filter id bs)).

Definition signed_sum (overflow_checks : bool) (mp : Multipolygon) (p : Point)
    : option Z :=
  fo ← mapM (is_point_in_polygon overflow_checks p) (outer mp);
  fi ← mapM (is_point_in_polygon overflow_checks p) (inner mp);
  Some (count_true fo - count_true fi).

(** The results of [n] successive calls of the iterator's [next]. *)
Fixpoint run (cb : CountryBoundaries) (n : nat) (it : CellsIter)
    : list (option (option Z)) :=
  match n with
  | O => []
  | S n' => let '(r, it') := cells_next cb it in r :: run cb n' it'
  end.

Fixpoint advance (cb : CountryBoundaries) (n : nat) (it : CellsIter) : CellsIter :=
  match n with
  | O => it
  | S n' => advance cb n' (cells_next cb it).2
  end.

(** The raster positions of the columns [min_x, min_x+1, ...] (modulo the
    width), each column walked from row [min_y] down to [min_y + steps_y]. *)
Definition column_major (w min_x min_y steps_x steps_y : Z) : list Z :=
  xs ← seqZ 0 (steps_x + 1);
  map (fun ys => (min_y + ys) * w + (min_x + xs) mod w) (seqZ 0 (steps_y + 1)).

Definition row_major (w min_x min_y steps_x steps_y : Z) : list Z :=
  ys ← seqZ 0 (steps_y + 1);
  map (fun xs => (min_y + ys) * w + (min_x + xs) mod w) (seqZ 0 (steps_x + 1)).

(** The local coordinate as spec section 3 describes it: the offset from
    the cell's west (south) edge as a fraction of the cell's extent, scaled
    so that 65536 is the next cell's edge, then floored. *)
Definition spec_local (offset extent : Q) : Z := Qfloor (offset / extent * 65536)%Q.

(** Sample data, as in the unit tests of lib.rs and multipolygon.rs. *)
Definition big_square : list Point :=
  [mkPoint 0 0; mkPoint 0 10; mkPoint 10 10; mkPoint 10 0].
Definition hole : list Point :=
  [mkPoint 2 2; mkPoint 2 8; mkPoint 8 8; mkPoint 8 2].
Definition small_square : list Point :=
  [mkPoint 4 4; mkPoint 4 6; mkPoint 6 6; mkPoint 6 4].

Definition single_id_cell (id : string) : Cell := Cell.mkCell [id] [].

Definition world_2x2 : CountryBoundaries :=
  mkCountryBoundaries
    [single_id_cell "A"; single_id_cell "B"; single_id_cell "C"; single_id_cell "D"]
    2 ∅.

Definition whole_world : BoundingBox := mkBoundingBox (-90) (-180) 90 180.


Definition degree_world : CountryBoundaries :=
  mkCountryBoundaries (repeat (Cell.mkCell [] []) (360 * 180)) 360 ∅.

Definition box_around_origin : BoundingBox := mkBoundingBox (-10) (-10) 10 10.

(** A box inside the north-eastern cell of [world_2x2]. *)
Definition box_in_b : BoundingBox := mkBoundingBox 10 10 20 20.

(** The exact cross product that [is_left] computes for 16-bit points. *)
Definition cross (p0 p1 p : Point) : Z :=
  (x p1 - x p0) * (y p - y p0) - (x p - x p0) * (y p1 - y p0).

(** What the edge from [vi] to [vj] adds to [wn] in [is_point_in_polygon]. *)
Definition edge_contrib (p vi vj : Point) : Z :=
  if y vi <=? y p then
    if y p <? y vj then (if 0 <? cross vi vj p then 1 else 0) else 0
  else
    if y vj <=? y p then (if cross vi vj p <? 0 then -1 else 0) else 0.

(** The winding number of the open path through the points of [l]. *)
Fixpoint path_winding (p : Point) (l : list Point) : Z :=
  match l with
  | a :: ((b :: _) as t) => edge_contrib p a b + path_winding p t
  | _ => 0
  end.

(** The winding number of the closed ring [v]: its edges are the one from
    the last vertex to the first, then those between neighbours. *)
Definition winding_number (p : Point) (v : list Point) : Z :=
  match list.last v with
  | Some l => path_winding p (l :: v)
  | None => 0
  end.

(** ** Exactness of the f64 arithmetic *)

(** The finite binary64 numbers: [m * 2^e] with a 53-bit significand and
    an exponent in the range of the finite doubles (subnormals included).
    IEEE arithmetic is correctly rounded, so an operation whose exact
    result is such a number returns it unchanged. *)
Definition binary64 (q : Q) : Prop :=
  exists m e : Z, Z.abs m < 2 ^ 53 /\ -1074 <= e <= 971 /\ (q == inject_Z m * 2 ^ e)%Q.

(** The multiples of [2^-28]. *)
Definition on_grid (q : Q) : Prop := exists m : Z, (q == inject_Z m * (1 # 2 ^ 28))%Q.

(** The exact results of the f64 operations of [cell_and_local_point] in
    the source's order: [normalize(lon, -180.0, 360.0)], then
    [longitude_to_cell_x], [longitude_to_local_x], [latitude_to_cell_y]
    and [latitude_to_local_y] (the integer-to-f64 conversions included).
    When every one of them is a binary64 number, every rounded operation
    of the source is exact, and the source computes the values of the
    model. *)
Definition local_point_steps (cb : CountryBoundaries) (lat lon : Q) : list Q :=
  let w := inject_Z (raster_width cb) in
  let r := f64_rem lon 360 in
  let nlon := normalize lon (-180) 360 in
  let cx := inject_Z (longitude_to_cell_x cb nlon) in
  let len := inject_Z (Z.of_nat (length (raster cb))) in
  let rh := raster_height cb in
  let cy := inject_Z (latitude_to_cell_y cb lat) in
  let dx := (nlon - (-180 + 360 * cx / w))%Q in
  let dy := (lat - (90 - 180 * (cy + 1) / rh))%Q in
  [ (* normalize *)
    r; (-180 + 360)%Q; nlon;
    (* longitude_to_cell_x *)
    w; (180 + nlon)%Q; (w * (180 + nlon))%Q; (w * (180 + nlon) / 360)%Q;
    (* longitude_to_local_x *)
    cx; (360 * cx)%Q; (360 * cx / w)%Q; (-180 + 360 * cx / w)%Q;
    dx; (dx * 65535)%Q; (dx * 65535 * 360)%Q; (dx * 65535 * 360 / w)%Q;
    (* latitude_to_cell_y *)
    len; rh; (90 - lat)%Q; (rh * (90 - lat))%Q; (rh * (90 - lat) / 180)%Q;
    (* latitude_to_local_y *)
    cy; (cy + 1)%Q; (180 * (cy + 1))%Q; (180 * (cy + 1) / rh)%Q;
    (90 - 180 * (cy + 1) / rh)%Q;
    dy; (dy * 65535)%Q; (dy * 65535 * 180)%Q; (dy * 65535 * 180 / rh)%Q ].

(** * Properties *)

Lemma signed_op_in (oc : bool) (bits z : Z) :
  - 2 ^ (bits - 1) <= z < 2 ^ (bits - 1) -> signed_op oc bits z = Some z.
Proof.
  intros [H1 H2]. unfold signed_op, in_signed.
  rewrite (proj2 (Z.leb_le _ _) H1), (proj2 (Z.ltb_lt _ _) H2). reflexivity.
Qed.

Lemma is_left_exact (oc : bool) (p0 p1 p : Point) :
  point_ok p0 -> point_ok p1 -> point_ok p ->
  is_left oc p0 p1 p =
    Some ((x p1 - x p0) * (y p - y p0) - (x p - x p0) * (y p1 - y p0)).
Proof.
  unfold point_ok, u16_ok.
  destruct p0 as [x0 y0], p1 as [x1 y1], p as [px py]; cbn [x y].
  intros [? ?] [? ?] [? ?]. unfold is_left; cbn [x y].
  assert (E : 2 ^ (64 - 1) = 9223372036854775808) by reflexivity.
  repeat (rewrite (signed_op_in oc 64) by (rewrite E; nia); cbn [mbind option_bind]).
  reflexivity.
Qed.

(** C9: [is_left], computed in [i64], returns the exact cross product for
    all unsigned 16-bit points, in either build profile: no operation
    overflows or wraps. *)
Theorem is_left_no_overflow (oc : bool) (p0 p1 p : Point)
    (H0 : point_ok p0) (H1 : point_ok p1) (H : point_ok p) :
  is_left oc p0 p1 p =
    Some ((x p1 - x p0) * (y p - y p0) - (x p - x p0) * (y p1 - y p0)).
Proof. apply is_left_exact; assumption. Qed.

Lemma is_left_no_overflow_witness :
  point_ok (mkPoint 0 0) /\ point_ok (mkPoint 65535 0) /\ point_ok (mkPoint 0 65535) /\
  is_left true (mkPoint 0 0) (mkPoint 65535 0) (mkPoint 0 65535) = Some 4294836225.
Proof.
  unfold point_ok, u16_ok; cbn [x y].
  split; [lia | split; [lia | split; [lia |]]].
  exact (is_left_no_overflow true (mkPoint 0 0) (mkPoint 65535 0) (mkPoint 0 65535)
           ltac:(unfold point_ok, u16_ok; cbn; lia) ltac:(unfold point_ok, u16_ok; cbn; lia)
           ltac:(unfold point_ok, u16_ok; cbn; lia)).
Defined.

(** The product terms of [is_left] do exceed the [i32] range. *)
Example is_left_product_exceeds_i32 :
  2 ^ 31 - 1 < (65535 - 0) * (65535 - 0).
Proof. reflexivity. Qed.

Ltac split_Z_tests :=
  repeat match goal with
  | |- context [Z.leb ?a ?b] => destruct (Z.leb_spec a b); cbn
  | |- context [Z.ltb ?a ?b] => destruct (Z.ltb_spec a b); cbn
  end.

(** Rewrite every comparison whose value [lia] settles. *)
Ltac settle_Z_tests :=
  repeat match goal with
  | |- context [?a <=? ?b] =>
      first [ rewrite (proj2 (Z.leb_le a b)) by lia
            | rewrite (proj2 (Z.leb_gt a b)) by lia ]
  | |- context [?a <? ?b] =>
      first [ rewrite (proj2 (Z.ltb_lt a b)) by lia
            | rewrite (proj2 (Z.ltb_ge a b)) by lia ]
  end.

Lemma pos_mul_test (a d : Z) : 0 < d -> (0 <? a * d) = (0 <? a).
Proof. intros. destruct (Z.ltb_spec 0 (a * d)), (Z.ltb_spec 0 a); nia. Qed.

Lemma neg_mul_test (a d : Z) : 0 < d -> (a * d <? 0) = (a <? 0).
Proof. intros. destruct (Z.ltb_spec (a * d) 0), (Z.ltb_spec a 0); nia. Qed.

Lemma pip_rectangle_cw (oc : bool) (x0 y0 x1 y1 : Z) (p : Point) :
  u16_ok x0 -> u16_ok y0 -> u16_ok x1 -> u16_ok y1 -> point_ok p ->
  x0 < x1 -> y0 < y1 ->
  is_point_in_polygon oc p [mkPoint x0 y0; mkPoint x0 y1; mkPoint x1 y1; mkPoint x1 y0] =
    Some ((x0 <=? x p) && (x p <? x1) && (y0 <=? y p) && (y p <? y1)).
Proof.
  intros Hx0 Hy0 Hx1 Hy1 Hp Hx Hy.
  assert (Hv : forall a b, u16_ok a -> u16_ok b -> point_ok (mkPoint a b))
    by (intros; split; assumption).
  unfold is_point_in_polygon, usize_sub, range_usize; simpl.
  unfold winding_step; cbn [x y].
  rewrite !is_left_exact by (first [exact Hp | apply Hv; assumption]).
  destruct p as [px py]; unfold point_ok, u16_ok in *; cbn [x y] in *.
  destruct (Z.lt_ge_cases py y0); [| destruct (Z.lt_ge_cases py y1)];
    settle_Z_tests; cbn; settle_Z_tests; cbn; rewrite ?andb_false_r; try reflexivity.
  replace ((x0 - x0) * (py - y0) - (px - x0) * (y1 - y0)) with ((x0 - px) * (y1 - y0))
    by ring.
  replace ((x1 - x1) * (py - y1) - (px - x1) * (y0 - y1)) with ((px - x1) * (y1 - y0))
    by ring.
  rewrite pos_mul_test, neg_mul_test by lia.
  destruct (Z.lt_ge_cases px x0); [| destruct (Z.lt_ge_cases px x1)];
    settle_Z_tests; reflexivity.
Qed.

Lemma pip_rectangle_ccw (oc : bool) (x0 y0 x1 y1 : Z) (p : Point) :
  u16_ok x0 -> u16_ok y0 -> u16_ok x1 -> u16_ok y1 -> point_ok p ->
  x0 < x1 -> y0 < y1 ->
  is_point_in_polygon oc p [mkPoint x0 y0; mkPoint x1 y0; mkPoint x1 y1; mkPoint x0 y1] =
    Some ((x0 <=? x p) && (x p <? x1) && (y0 <=? y p) && (y p <? y1)).
Proof.
  intros Hx0 Hy0 Hx1 Hy1 Hp Hx Hy.
  assert (Hv : forall a b, u16_ok a -> u16_ok b -> point_ok (mkPoint a b))
    by (intros; split; assumption).
  unfold is_point_in_polygon, usize_sub, range_usize; simpl.
  unfold winding_step; cbn [x y].
  rewrite !is_left_exact by (first [exact Hp | apply Hv; assumption]).
  destruct p as [px py]; unfold point_ok, u16_ok in *; cbn [x y] in *.
  destruct (Z.lt_ge_cases py y0); [| destruct (Z.lt_ge_cases py y1)];
    settle_Z_tests; cbn; settle_Z_tests; cbn; rewrite ?andb_false_r; try reflexivity.
  replace ((x0 - x0) * (py - y1) - (px - x0) * (y0 - y1)) with ((px - x0) * (y1 - y0))
    by ring.
  replace ((x1 - x1) * (py - y0) - (px - x1) * (y1 - y0)) with ((x1 - px) * (y1 - y0))
    by ring.
  rewrite pos_mul_test, neg_mul_test by lia.
  destruct (Z.lt_ge_cases px x0); [| destruct (Z.lt_ge_cases px x1)];
    settle_Z_tests; reflexivity.
Qed.

(** C5: the winding-number test puts the lower and left edges of a ring
    inside and its upper and right edges outside: for every axis-aligned
    rectangle [x0, x1] x [y0, y1] of unsigned 16-bit corners, listed in
    either orientation, a point is inside exactly when
    [x0 <= x < x1] and [y0 <= y < y1]; in particular, for the square
    (0,0),(0,10),(10,10),(10,0), the points (0,0), (5,0), (0,5) are inside
    and (0,10), (10,0), (10,10), (5,10), (10,5) are outside. *)
Theorem ring_boundary_rule (oc : bool) (x0 y0 x1 y1 : Z) (p : Point)
    (Hx0 : u16_ok x0) (Hy0 : u16_ok y0) (Hx1 : u16_ok x1) (Hy1 : u16_ok y1)
    (Hp : point_ok p) (Hx : x0 < x1) (Hy : y0 < y1) :
  is_point_in_polygon oc p [mkPoint x0 y0; mkPoint x0 y1; mkPoint x1 y1; mkPoint x1 y0] =
    Some ((x0 <=? x p) && (x p <? x1) && (y0 <=? y p) && (y p <? y1)) /\
  is_point_in_polygon oc p [mkPoint x0 y0; mkPoint x1 y0; mkPoint x1 y1; mkPoint x0 y1] =
    Some ((x0 <=? x p) && (x p <? x1) && (y0 <=? y p) && (y p <? y1)) /\
  map (fun q => is_point_in_polygon oc q big_square)
    [mkPoint 0 0; mkPoint 5 0; mkPoint 0 5;
     mkPoint 0 10; mkPoint 10 0; mkPoint 10 10; mkPoint 5 10; mkPoint 10 5] =
    [Some true; Some true; Some true;
     Some false; Some false; Some false; Some false; Some false].
Proof.
  split; [| split].
  - apply pip_rectangle_cw; assumption.
  - apply pip_rectangle_ccw; assumption.
  - destruct oc; reflexivity.
Qed.

Lemma ring_boundary_rule_witness :
  (u16_ok 0 /\ u16_ok 10 /\ point_ok (mkPoint 5 0) /\ 0 < 10) /\
  is_point_in_polygon true (mkPoint 5 0) big_square = Some true.
Proof.
  split; [unfold u16_ok, point_ok, u16_ok; cbn; lia |].
  exact (proj1 (ring_boundary_rule true 0 0 10 10 (mkPoint 5 0)
           ltac:(unfold u16_ok; lia) ltac:(unfold u16_ok; lia)
           ltac:(unfold u16_ok; lia) ltac:(unfold u16_ok; lia)
           ltac:(unfold point_ok, u16_ok; cbn; lia) ltac:(lia) ltac:(lia))).
Defined.

(** C10: on an empty vertex list the initial [v.len() - 1] underflows.
    With overflow checks off (release profile) it wraps, the edge loop
    runs zero times without reading a vertex and the test returns false,
    so [covers] ignores empty rings and a multipolygon whose rings are all
    empty covers nothing; with overflow checks on (dev/test profile) the
    subtraction panics, and so does [covers] on a multipolygon with an
    empty ring. *)
Theorem empty_ring_panics_with_overflow_checks :
  (forall p, is_point_in_polygon false p [] = Some false) /\
  (forall p (mp : Multipolygon),
     Forall (fun r => r = []) (outer mp) -> Forall (fun r => r = []) (inner mp) ->
     covers false mp p = Some false) /\
  (forall p, is_point_in_polygon true p [] = None) /\
  covers true (mkMultipolygon [[]] []) (mkPoint 0 0) = None.
Proof.
  split; [| split; [| split]].
  - reflexivity.
  - intros p [o i] Ho Hi; cbn [outer inner] in *. unfold covers; cbn [outer inner].
    assert (Eo : forall n, count_outer false p o n = Some n).
    { induction Ho as [| r rs Hr _ IH]; intros n; [reflexivity |].
      subst r. cbn. apply IH. }
    assert (Ei : forall n, count_inner false p i n = Some n).
    { induction Hi as [| r rs Hr _ IH]; intros n; [reflexivity |].
      subst r. cbn. apply IH. }
    rewrite Eo; cbn. rewrite Ei. reflexivity.
  - reflexivity.
  - reflexivity.
Qed.

Lemma mapM_length {A B} (f : A -> option B) (l : list A) (l' : list B) :
  mapM f l = Some l' -> length l' = length l.
Proof.
  revert l'. induction l as [| a l IH]; intros l' H; cbn in H.
  - injection H as <-. reflexivity.
  - destruct (f a); cbn in H; [| discriminate].
    destruct (mapM f l) eqn:E; cbn in H; [| discriminate].
    injection H as <-. cbn. f_equal. apply IH. reflexivity.
Qed.

Lemma count_true_cons (b : bool) (bs : list bool) :
  count_true (b :: bs) = (if b then 1 else 0) + count_true bs.
Proof. unfold count_true. destruct b; simpl; lia. Qed.

Lemma count_true_bounds (bs : list bool) : 0 <= count_true bs <= Z.of_nat (length bs).
Proof.
  induction bs as [| b bs IH]; [unfold count_true; simpl; lia |].
  rewrite count_true_cons. cbn [length]. destruct b; lia.
Qed.

Lemma count_outer_sum (oc : bool) (p : Point) (rs : list (list Point)) (n : Z) :
  0 <= n -> n + Z.of_nat (length rs) < 2 ^ 31 ->
  count_outer oc p rs n =
    (fun fo => n + count_true fo) <$> mapM (is_point_in_polygon oc p) rs.
Proof.
  revert n. induction rs as [| r rs IH]; intros n H0 H1.
  - cbn. f_equal. unfold count_true. cbn. lia.
  - cbn [length] in H1. cbn [count_outer mapM].
    destruct (is_point_in_polygon oc p r) as [b |]; [| reflexivity]. cbn.
    assert (E : count_if oc b 1 n = Some ((if b then 1 else 0) + n)).
    { destruct b; cbn; [| f_equal; lia].
      rewrite signed_op_in by (cbn; lia). f_equal; lia. }
    rewrite E. cbn. rewrite IH by (destruct b; lia).
    destruct (mapM (is_point_in_polygon oc p) rs); cbn; [| reflexivity].
    rewrite count_true_cons. f_equal. lia.
Qed.

Lemma count_inner_sum (oc : bool) (p : Point) (rs : list (list Point)) (n : Z) :
  n < 2 ^ 31 -> - 2 ^ 31 <= n - Z.of_nat (length rs) ->
  count_inner oc p rs n =
    (fun fi => n - count_true fi) <$> mapM (is_point_in_polygon oc p) rs.
Proof.
  revert n. induction rs as [| r rs IH]; intros n H0 H1.
  - cbn. f_equal. unfold count_true. cbn. lia.
  - cbn [length] in H1. cbn [count_inner mapM].
    destruct (is_point_in_polygon oc p r) as [b |]; [| reflexivity]. cbn.
    assert (E : count_if oc b (-1) n = Some (n - (if b then 1 else 0))).
    { destruct b; cbn; [| f_equal; lia].
      rewrite signed_op_in by (cbn; lia). f_equal; lia. }
    rewrite E. cbn. rewrite IH by (destruct b; lia).
    destruct (mapM (is_point_in_polygon oc p) rs); cbn; [| reflexivity].
    rewrite count_true_cons. f_equal. lia.
Qed.

(** C4: [covers] is the signed-sum rule: it is true exactly when the
    number of outer rings containing the point minus the number of inner
    rings containing it is positive (for multipolygons with fewer than
    2^31 outer and 2^31 inner rings, the range of the [i32] counter; a
    ring test that panics makes both sides panic).  A point inside an
    outer ring and a hole is not covered; a point also inside a ring
    nested in the hole is covered again. *)
Theorem covers_signed_sum (oc : bool) (mp : Multipolygon) (p : Point)
    (Ho : Z.of_nat (length (outer mp)) < 2 ^ 31)
    (Hi : Z.of_nat (length (inner mp)) < 2 ^ 31) :
  covers oc mp p = (fun s => 0 <? s) <$> signed_sum oc mp p /\
  covers oc (mkMultipolygon [big_square] [hole]) (mkPoint 5 5) = Some false /\
  covers oc (mkMultipolygon [big_square; small_square] [hole]) (mkPoint 5 5) = Some true.
Proof.
  split; [| destruct oc; split; reflexivity].
  unfold covers, signed_sum.
  rewrite count_outer_sum by lia.
  destruct (mapM (is_point_in_polygon oc p) (outer mp)) as [fo |] eqn:Efo;
    cbn; [| reflexivity].
  pose proof (mapM_length _ _ _ Efo). pose proof (count_true_bounds fo).
  rewrite count_inner_sum by lia.
  destruct (mapM (is_point_in_polygon oc p) (inner mp)); reflexivity.
Qed.

Lemma covers_signed_sum_witness :
  (Z.of_nat (length (outer (mkMultipolygon [big_square; small_square] [hole]))) < 2 ^ 31 /\
   Z.of_nat (length (inner (mkMultipolygon [big_square; small_square] [hole]))) < 2 ^ 31) /\
  covers true (mkMultipolygon [big_square; small_square] [hole]) (mkPoint 5 5) =
    (fun s => 0 <? s) <$> signed_sum true (mkMultipolygon [big_square; small_square] [hole])
                             (mkPoint 5 5).
Proof.
  split; [cbn; lia |].
  exact (proj1 (covers_signed_sum true (mkMultipolygon [big_square; small_square] [hole])
                  (mkPoint 5 5) ltac:(cbn; lia) ltac:(cbn; lia))).
Defined.

Lemma normalize_antimeridian :
  normalize 180 (-180) 360 = (-180)%Q /\ normalize (-180) (-180) 360 = (-180)%Q.
Proof. split; reflexivity. Qed.

(** C2: on the 2x2 world raster of single-id cells A, B, C, D, the box
    (-90, -180, 90, 180) visits only the western column: its maximum
    longitude 180 normalizes to -180, the same column as its minimum, so
    [intersecting_ids] returns {A, C} instead of {A, B, C, D};
    [containing_ids] returns the empty set. *)
Theorem whole_world_box_on_2x2 (oc : bool) :
  normalize (max_longitude whole_world) (-180) 360 =
    normalize (min_longitude whole_world) (-180) 360 /\
  visited_cells oc world_2x2 whole_world = Some [single_id_cell "A"; single_id_cell "C"] /\
  intersecting_ids oc world_2x2 whole_world = Some {[ "A"; "C" ]} /\
  containing_ids oc world_2x2 whole_world = Some ∅.
Proof. destruct oc; repeat split; vm_compute; reflexivity. Qed.

(** C7: longitude 180 and longitude -180 resolve to the same cell and the
    same local point at every latitude, so [is_in], [is_in_any] and [ids]
    answer identically. *)
Theorem antimeridian_equivalence (oc : bool) (cb : CountryBoundaries) (lat : Q) :
  cell_and_local_point cb (mkLatLon lat 180) = cell_and_local_point cb (mkLatLon lat (-180)) /\
  (forall id, is_in oc cb (mkLatLon lat 180) id = is_in oc cb (mkLatLon lat (-180)) id) /\
  (forall ids' : gset string,
     is_in_any oc cb (mkLatLon lat 180) ids' = is_in_any oc cb (mkLatLon lat (-180)) ids') /\
  ids oc cb (mkLatLon lat 180) = ids oc cb (mkLatLon lat (-180)).
Proof.
  assert (E : cell_and_local_point cb (mkLatLon lat 180) =
              cell_and_local_point cb (mkLatLon lat (-180))).
  { unfold cell_and_local_point; cbn [longitude latitude].
    destruct normalize_antimeridian as [-> ->]. reflexivity. }
  unfold is_in, is_in_any, ids. rewrite E. repeat split; reflexivity.
Qed.

Section StableSort.
Context {A : Type} (key : A -> Q).

Let cmp (a b : A) : comparison := Qcompare (key a) (key b).







End StableSort.



(** C1 fails as stated: the local coordinate is scaled by 65535 per cell,
    not 65536 (on the 1-degree raster, half a cell east of the west edge
    gives 32767, not 32768), and the factor [360 / width] in place of
    [width / 360] makes it saturate on other rasters (on the 2x2 raster,
    half a cell east of the west edge gives 65535, not 32768). *)
Lemma local_x_counterexample :
  longitude_to_cell_x degree_world (1 # 2) = 180 /\
  longitude_to_local_x degree_world 180 (1 # 2) = 32767 /\
  spec_local (1 # 2) 1 = 32768 /\
  longitude_to_cell_x world_2x2 (-90) = 0 /\
  longitude_to_local_x world_2x2 0 (-90) = 65535 /\
  spec_local 90 180 = 32768.
Proof. repeat split; vm_compute; reflexivity. Qed.

(** C3 fails as stated: the iterator walks the rectangle column by column
    (its inner counter is [y_step]); for the 2x2 raster and the box
    (-10, -10, 10, 10) it yields the raster positions 0, 2, 1, 3, while
    the row-major order of the same rectangle is 0, 1, 2, 3. *)
Lemma cells_order_counterexample :
  visited_positions true world_2x2 box_around_origin = Some [0; 2; 1; 3] /\
  visited_positions false world_2x2 box_around_origin = Some [0; 2; 1; 3] /\
  row_major 2 0 0 1 1 = [0; 1; 2; 3] /\
  column_major 2 0 0 1 1 = [0; 2; 1; 3].
Proof. repeat split; vm_compute; reflexivity. Qed.

(** ** The coordinate-to-cell mapping stays in range *)

Lemma raster_height_eq (cb : CountryBoundaries) (h : Z) :
  1 <= raster_width cb -> Z.of_nat (length (raster cb)) = raster_width cb * h ->
  (raster_height cb == inject_Z h)%Q.
Proof.
  intros Hw Hlen. unfold raster_height. rewrite Hlen, inject_Z_mult.
  field. intros E.
  assert (raster_width cb = 0) by (apply inject_Z_injective; exact E). lia.
Qed.

Lemma cell_x_range (cb : CountryBoundaries) (lon : Q) :
  1 <= raster_width cb -> 0 <= longitude_to_cell_x cb lon <= raster_width cb - 1.
Proof.
  intros Hw. unfold longitude_to_cell_x, saturating_sub, f64_to_usize. lia.
Qed.

Lemma Qceiling_le_Z (q : Q) (z : Z) : (q <= inject_Z z)%Q -> Qceiling q <= z.
Proof. intros H. rewrite <- (Qceiling_Z z). apply Qceiling_resp_le. exact H. Qed.

Lemma cell_y_range (cb : CountryBoundaries) (h : Z) (lat : Q) :
  1 <= raster_width cb -> 1 <= h -> Z.of_nat (length (raster cb)) = raster_width cb * h ->
  (-90 <= lat)%Q -> 0 <= latitude_to_cell_y cb lat <= h - 1.
Proof.
  intros Hw Hh Hlen Hlat. unfold latitude_to_cell_y, saturating_sub, f64_to_usize.
  rewrite (raster_height_eq cb h Hw Hlen).
  assert (Hc : Qceiling (inject_Z h * (90 - lat) / 180) <= h).
  { apply Qceiling_le_Z. apply Qle_shift_div_r; [reflexivity |].
    assert (H0 : (0 < inject_Z h)%Q)
      by (change 0%Q with (inject_Z 0); rewrite <- Zlt_Qlt; lia).
    apply (Qmult_le_l _ _ _ H0). lra. }
  lia.
Qed.

(** C6: on a raster of width [w >= 1] and height [h >= 1] (with
    [w * h] cells), every latitude in [-90, 90] and longitude in
    [-180, 180] is mapped to a column in [0, w-1] (before and after
    longitude normalization) and a row in [0, h-1], so the lookup
    [raster[y * width + x]] of a point query is in range and never
    panics, including at exactly +-90 and +-180 degrees. *)
Theorem cell_lookup_in_bounds (cb : CountryBoundaries) (h : Z) (lat lon : Q)
    (Hw : 1 <= raster_width cb) (Hh : 1 <= h)
    (Hlen : Z.of_nat (length (raster cb)) = raster_width cb * h)
    (Hlat : (-90 <= lat <= 90)%Q) (Hlon : (-180 <= lon <= 180)%Q) :
  0 <= longitude_to_cell_x cb lon <= raster_width cb - 1 /\
  0 <= longitude_to_cell_x cb (normalize lon (-180) 360) <= raster_width cb - 1 /\
  0 <= latitude_to_cell_y cb lat <= h - 1 /\
  0 <= latitude_to_cell_y cb lat * raster_width cb +
         longitude_to_cell_x cb (normalize lon (-180) 360)
    < Z.of_nat (length (raster cb)) /\
  exists c p, cell_and_local_point cb (mkLatLon lat lon) = Some (c, p).
Proof.
  pose proof (cell_x_range cb lon Hw) as Hx.
  pose proof (cell_x_range cb (normalize lon (-180) 360) Hw) as Hnx.
  pose proof (cell_y_range cb h lat Hw Hh Hlen (proj1 Hlat)) as Hy.
  assert (Hk : 0 <= latitude_to_cell_y cb lat * raster_width cb +
                    longitude_to_cell_x cb (normalize lon (-180) 360)
               < Z.of_nat (length (raster cb))) by (rewrite Hlen; nia).
  split; [exact Hx | split; [exact Hnx | split; [exact Hy | split; [exact Hk |]]]].
  unfold cell_and_local_point, cell, index; cbn [longitude latitude].
  rewrite (proj2 (Z.leb_le _ _) (proj1 Hk)).
  destruct (lookup_lt_is_Some_2 (raster cb)
              (Z.to_nat (latitude_to_cell_y cb lat * raster_width cb +
                         longitude_to_cell_x cb (normalize lon (-180) 360))))
    as [c Hc]; [lia |].
  rewrite Hc. cbn. eexists _, _. reflexivity.
Qed.

Lemma cell_lookup_in_bounds_witness :
  (1 <= raster_width world_2x2 /\ 1 <= 2 /\
   Z.of_nat (length (raster world_2x2)) = raster_width world_2x2 * 2 /\
   (-90 <= 90 <= 90)%Q /\ (-180 <= 180 <= 180)%Q) /\
  0 <= latitude_to_cell_y world_2x2 90 <= 2 - 1.
Proof.
  split; [repeat split; try lra; vm_compute; congruence |].
  exact (proj1 (proj2 (proj2 (cell_lookup_in_bounds world_2x2 2 90 180
           ltac:(vm_compute; congruence) ltac:(lia) ltac:(reflexivity)
           ltac:(split; lra) ltac:(split; lra))))).
Defined.

(** ** Local coordinates on the 1-degree raster *)

Lemma f64_rem_small (lon : Q) : (-180 <= lon <= 180)%Q -> (f64_rem lon 360 == lon)%Q.
Proof.
  intros [H1 H2]. unfold f64_rem.
  assert (E : f64_trunc (lon / 360) = 0).
  { destruct lon as [n d]. unfold Qle in H1, H2; cbn in H1, H2.
    unfold f64_trunc; cbn.
    apply Z.quot_small_iff; lia. }
  rewrite E. cbn. ring.
Qed.

Lemma normalize_lon (lon : Q) :
  (-180 <= lon <= 180)%Q ->
  (-180 <= normalize lon (-180) 360 < 180)%Q /\
  (normalize lon (-180) 360 == lon \/ (lon == 180 /\ normalize lon (-180) 360 == -180))%Q.
Proof.
  intros Hlon. pose proof (f64_rem_small lon Hlon) as E.
  unfold normalize, Qltb.
  destruct (Qle_bool (-180) (f64_rem lon 360)) eqn:E1; cbn [negb].
  2: { exfalso. assert (~ (-180 <= f64_rem lon 360)%Q) as N
         by (rewrite <- Qle_bool_iff; congruence).
       apply N. rewrite E. apply Hlon. }
  destruct (Qle_bool (-180 + 360) (f64_rem lon 360)) eqn:E2.
  - apply Qle_bool_iff in E2. split; [lra |]. right. lra.
  - assert (~ (-180 + 360 <= f64_rem lon 360)%Q) as N
      by (rewrite <- Qle_bool_iff; congruence).
    apply Qnot_le_lt in N. split; [lra |]. left. exact E.
Qed.

Lemma Qfloor_in (q : Q) (lo hi : Z) :
  (inject_Z lo <= q)%Q -> (q < inject_Z hi)%Q -> lo <= Qfloor q < hi.
Proof.
  intros H1 H2. split.
  - rewrite <- (Qfloor_Z lo). apply Qfloor_resp_le. exact H1.
  - rewrite Zlt_Qlt. apply Qle_lt_trans with q; [apply Qfloor_le | exact H2].
Qed.

Lemma Qceiling_in (q : Q) (lo hi : Z) :
  (inject_Z lo <= q)%Q -> (q <= inject_Z hi)%Q -> lo <= Qceiling q <= hi.
Proof.
  intros H1 H2. split.
  - rewrite <- (Qceiling_Z lo). apply Qceiling_resp_le. exact H1.
  - apply Qceiling_le_Z. exact H2.
Qed.

Lemma Qfloor_bounds (q : Q) :
  (inject_Z (Qfloor q) <= q /\ q < inject_Z (Qfloor q) + 1)%Q.
Proof.
  split; [apply Qfloor_le |].
  pose proof (Qlt_floor q) as H. rewrite inject_Z_plus in H. exact H.
Qed.

Lemma Qceiling_bounds (q : Q) :
  (q <= inject_Z (Qceiling q) /\ inject_Z (Qceiling q) - 1 < q)%Q.
Proof.
  split; [apply Qle_ceiling |].
  pose proof (Qceiling_lt q) as H.
  unfold Z.sub in H. rewrite inject_Z_plus, inject_Z_opp in H. exact H.
Qed.

Ltac inject_consts :=
  repeat match goal with
  | H : context [inject_Z 0] |- _ => change (inject_Z 0) with 0%Q in H
  | H : context [inject_Z (Zpos ?p)] |- _ => change (inject_Z (Zpos p)) with (Qmake (Zpos p) 1) in H
  | |- context [inject_Z 0] => change (inject_Z 0) with 0%Q
  | |- context [inject_Z (Zpos ?p)] => change (inject_Z (Zpos p)) with (Qmake (Zpos p) 1)
  end.


#[global] Instance on_grid_proper : Proper (Qeq ==> iff) on_grid.
Proof.
  intros a b E. unfold on_grid. split; intros [m H]; exists m; [rewrite <- E | rewrite E]; exact H.
Qed.

Lemma on_grid_Z (z : Z) : on_grid (inject_Z z).
Proof.
  exists (z * 2 ^ 28). rewrite inject_Z_mult.
  change (inject_Z (2 ^ 28)) with 268435456%Q.
  change (1 # 2 ^ 28)%Q with (/ 268435456)%Q. field.
Qed.

Lemma on_grid_add (a b : Q) : on_grid a -> on_grid b -> on_grid (a + b).
Proof. intros [m Hm] [n Hn]. exists (m + n). rewrite Hm, Hn, inject_Z_plus. ring. Qed.

Lemma on_grid_sub (a b : Q) : on_grid a -> on_grid b -> on_grid (a - b).
Proof.
  intros [m Hm] [n Hn]. exists (m - n). rewrite Hm, Hn.
  unfold Z.sub. rewrite inject_Z_plus, inject_Z_opp. ring.
Qed.

Lemma on_grid_opp (a : Q) : on_grid a -> on_grid (- a).
Proof. intros [m Hm]. exists (- m). rewrite Hm, inject_Z_opp. ring. Qed.

Lemma on_grid_mul_Z_l (z : Z) (a : Q) : on_grid a -> on_grid (inject_Z z * a).
Proof. intros [m Hm]. exists (z * m). rewrite Hm, inject_Z_mult. ring. Qed.

Lemma on_grid_mul_Z_r (z : Z) (a : Q) : on_grid a -> on_grid (a * inject_Z z).
Proof. intros [m Hm]. exists (m * z). rewrite Hm, inject_Z_mult. ring. Qed.

Lemma binary64_grid (q : Q) :
  on_grid q -> (- 33554432 < q < 33554432)%Q -> binary64 q.
Proof.
  intros [m Hm] B. exists m, (-28).
  assert (E : (2 ^ (-28) == 1 # 2 ^ 28)%Q) by reflexivity.
  split; [| split; [lia | rewrite E; exact Hm]].
  assert (Bm : (- 9007199254740992 < inject_Z m < 9007199254740992)%Q).
  { assert (Em : (inject_Z m == q * 268435456)%Q)
      by (rewrite Hm; change (1 # 2 ^ 28)%Q with (/ 268435456)%Q; field).
    rewrite Em. lra. }
  destruct Bm as [B1 B2].
  change (-9007199254740992)%Q with (inject_Z (-9007199254740992)) in B1.
  change 9007199254740992%Q with (inject_Z 9007199254740992) in B2.
  rewrite <- Zlt_Qlt in B1, B2. lia.
Qed.

Ltac grid :=
  repeat first [ assumption
               | apply on_grid_sub | apply on_grid_add | apply on_grid_opp
               | apply on_grid_mul_Z_l | apply on_grid_mul_Z_r | apply on_grid_Z ].


Lemma local_point_degree_aux (cb : CountryBoundaries) (lat lon : Q)
    (Hw : raster_width cb = 360) (Hlen : Z.of_nat (length (raster cb)) = 360 * 180)
    (Hlat : (-90 <= lat <= 90)%Q) (Hlon : (-180 <= lon <= 180)%Q) :
  let nlon := normalize lon (-180) 360 in
  let cx := longitude_to_cell_x cb nlon in
  let cy := latitude_to_cell_y cb lat in
  ((nlon == lon \/ (lon == 180 /\ nlon == -180)) /\
   0 <= nlon - (-180 + inject_Z cx) < 1 /\
   0 <= lat - (90 - inject_Z (cy + 1)) <= 1 /\
   (lat - (90 - inject_Z (cy + 1)) == 1 -> lat == 90))%Q /\
  longitude_to_local_x cb cx nlon = Qfloor ((nlon - (-180 + inject_Z cx)) * 65535)%Q /\
  latitude_to_local_y cb cy lat = Qfloor ((lat - (90 - inject_Z (cy + 1))) * 65535)%Q /\
  0 <= longitude_to_local_x cb cx nlon <= 65534 /\
  0 <= latitude_to_local_y cb cy lat <= 65535.
Proof.
  intros nlon cx cy.
  destruct (normalize_lon lon Hlon) as [Hn Hnl]. fold nlon in Hn, Hnl.
  (* the column *)
  assert (Ecx : cx = Qfloor (180 + nlon)).
  { unfold cx, longitude_to_cell_x, saturating_sub, f64_to_usize. rewrite Hw.
    assert (Ef : Qfloor (inject_Z 360 * (180 + nlon) / 360) = Qfloor (180 + nlon))
      by (apply Qfloor_comp; change (inject_Z 360) with 360%Q; field).
    rewrite Ef.
    pose proof (Qfloor_in (180 + nlon) 0 360) as R.
    assert (0 <= Qfloor (180 + nlon) < 360) by (apply R; inject_consts; lra). lia. }
  destruct (Qfloor_bounds (180 + nlon)) as [Fx1 Fx2]. rewrite <- Ecx in Fx1, Fx2.
  assert (Dx : (0 <= nlon - (-180 + inject_Z cx) < 1)%Q) by lra.
  (* local x *)
  assert (Ex : longitude_to_local_x cb cx nlon = Qfloor ((nlon - (-180 + inject_Z cx)) * 65535)).
  { unfold longitude_to_local_x, f64_to_u16. rewrite Hw.
    assert (E : Qfloor ((nlon - (-180 + 360 * inject_Z cx / inject_Z 360)) * 65535 * 360
                        / inject_Z 360)
                = Qfloor ((nlon - (-180 + inject_Z cx)) * 65535))
      by (apply Qfloor_comp; change (inject_Z 360) with 360%Q; field).
    rewrite E.
    assert (0 <= Qfloor ((nlon - (-180 + inject_Z cx)) * 65535) < 65535)
      by (apply Qfloor_in; inject_consts; lra). lia. }
  (* the row *)
  assert (Hh : (raster_height cb == 180)%Q)
    by (apply (raster_height_eq cb 180); lia).
  set (c := Qceiling (90 - lat)).
  assert (Rc : 0 <= c <= 180) by (apply Qceiling_in; inject_consts; lra).
  destruct (Qceiling_bounds (90 - lat)) as [Fc1 Fc2]. fold c in Fc1, Fc2.
  assert (Ecy : cy = Z.max 0 (c - 1)).
  { unfold cy, latitude_to_cell_y, saturating_sub, f64_to_usize.
    assert (E : Qceiling (raster_height cb * (90 - lat) / 180) = c)
      by (unfold c; apply Qceiling_comp; rewrite Hh; field).
    rewrite E. lia. }
  assert (Dy : (0 <= lat - (90 - inject_Z (cy + 1)) <= 1 /\
                (lat - (90 - inject_Z (cy + 1)) == 1 -> lat == 90))%Q).
  { rewrite inject_Z_plus. destruct (Z.eq_dec c 0) as [Z0 | Z0].
    - assert (cy = 0) as -> by lia. rewrite Z0 in Fc1, Fc2. inject_consts.
      split; [lra | intros _; lra].
    - assert (cy + 1 = c) as Ec by lia.
      rewrite <- inject_Z_plus, Ec.
      split; [lra | intros; lra]. }
  (* local y *)
  assert (Ey : latitude_to_local_y cb cy lat
               = Qfloor ((lat - (90 - inject_Z (cy + 1))) * 65535)).
  { unfold latitude_to_local_y, f64_to_u16.
    assert (E : Qfloor ((lat - (90 - 180 * (inject_Z cy + 1) / raster_height cb)) * 65535 * 180
                        / raster_height cb)
                = Qfloor ((lat - (90 - inject_Z (cy + 1))) * 65535))
      by (apply Qfloor_comp; rewrite Hh, inject_Z_plus; field).
    rewrite E.
    assert (0 <= Qfloor ((lat - (90 - inject_Z (cy + 1))) * 65535) < 65536)
      by (apply Qfloor_in; inject_consts; lra). lia. }
  rewrite Ex, Ey.
  assert (0 <= Qfloor ((nlon - (-180 + inject_Z cx)) * 65535) < 65535)
    by (apply Qfloor_in; inject_consts; lra).
  assert (0 <= Qfloor ((lat - (90 - inject_Z (cy + 1))) * 65535) < 65536)
    by (apply Qfloor_in; inject_consts; lra).
  split; [split; [exact Hnl | split; [exact Dx | exact Dy]] |].
  split; [reflexivity |]. split; [reflexivity |]. lia.
Qed.

Lemma local_point_steps_exact (cb : CountryBoundaries) (lat lon : Q)
    (Hw : raster_width cb = 360) (Hlen : Z.of_nat (length (raster cb)) = 360 * 180)
    (Hlat : (-90 <= lat <= 90)%Q) (Hlon : (-180 <= lon <= 180)%Q)
    (Glat : on_grid lat) (Glon : on_grid lon) :
  Forall binary64 (local_point_steps cb lat lon).
Proof.
  destruct (local_point_degree_aux cb lat lon Hw Hlen Hlat Hlon)
    as [[Hn [Dx [Dy _]]] _].
  unfold local_point_steps.
  assert (Hh : (raster_height cb == 180)%Q) by (apply (raster_height_eq cb 180); lia).
  pose proof (f64_rem_small lon Hlon) as Er.
  destruct (normalize_lon lon Hlon) as [Rn _].
  rewrite Hw, Hlen.
  set (nlon := normalize lon (-180) 360) in *.
  set (cx := longitude_to_cell_x cb nlon) in *.
  set (cy := latitude_to_cell_y cb lat) in *.
  set (rh := raster_height cb) in *.
  clearbody nlon cx cy rh.
  assert (Gn : on_grid nlon) by (destruct Hn as [E | [_ E]]; rewrite E; [exact Glon | apply on_grid_Z]).
  rewrite inject_Z_plus in Dy. change (inject_Z 1) with 1%Q in Dy.
  change (inject_Z 360) with 360%Q. change (inject_Z (360 * 180)) with 64800%Q.
  assert (E1 : (360 * (180 + nlon) / 360 == 180 + nlon)%Q) by field.
  assert (E2 : (360 * inject_Z cx / 360 == inject_Z cx)%Q) by field.
  assert (E3 : ((nlon - (-180 + inject_Z cx)) * 65535 * 360 / 360
                == (nlon - (-180 + inject_Z cx)) * 65535)%Q) by field.
  assert (E4 : (180 * (90 - lat) / 180 == 90 - lat)%Q) by field.
  assert (E5 : (180 * (inject_Z cy + 1) / 180 == inject_Z cy + 1)%Q) by field.
  assert (E6 : ((lat - (90 - (inject_Z cy + 1))) * 65535 * 180 / 180
                == (lat - (90 - (inject_Z cy + 1))) * 65535)%Q) by field.
  repeat apply List.Forall_cons; try apply List.Forall_nil;
    apply binary64_grid; rewrite ?Hh, ?Er, ?E1, ?E2, ?E3, ?E4, ?E5, ?E6.
  all: first [split; lra | grid].
Qed.

(** C1 (amended): on the 1-degree raster (width 360, height 180), for a
    latitude in [-90, 90] and a longitude in [-180, 180] that are multiples
    of 2^-28 degree, every f64 operation of the lookup is exact (its exact
    result is a binary64 number), so the source computes what the model
    does; and the local point is the floor of 65535 times the offset from
    the cell's western (resp. southern) edge, measured in degrees: the x
    offset lies in [0, 1) and the y offset in [0, 1], the value 1 only at
    latitude 90; so local x lies in [0, 65534] and local y in [0, 65535],
    with no saturation. The longitude 180 is handled as -180. *)
Theorem local_point_on_degree_raster (cb : CountryBoundaries) (lat lon : Q)
    (Hw : raster_width cb = 360) (Hlen : Z.of_nat (length (raster cb)) = 360 * 180)
    (Hlat : (-90 <= lat <= 90)%Q) (Hlon : (-180 <= lon <= 180)%Q)
    (Glat : on_grid lat) (Glon : on_grid lon) :
  let nlon := normalize lon (-180) 360 in
  let cx := longitude_to_cell_x cb nlon in
  let cy := latitude_to_cell_y cb lat in
  Forall binary64 (local_point_steps cb lat lon) /\
  ((nlon == lon \/ (lon == 180 /\ nlon == -180)) /\
   0 <= nlon - (-180 + inject_Z cx) < 1 /\
   0 <= lat - (90 - inject_Z (cy + 1)) <= 1 /\
   (lat - (90 - inject_Z (cy + 1)) == 1 -> lat == 90))%Q /\
  longitude_to_local_x cb cx nlon = Qfloor ((nlon - (-180 + inject_Z cx)) * 65535)%Q /\
  latitude_to_local_y cb cy lat = Qfloor ((lat - (90 - inject_Z (cy + 1))) * 65535)%Q /\
  0 <= longitude_to_local_x cb cx nlon <= 65534 /\
  0 <= latitude_to_local_y cb cy lat <= 65535.
Proof.
  split; [exact (local_point_steps_exact cb lat lon Hw Hlen Hlat Hlon Glat Glon) |].
  exact (local_point_degree_aux cb lat lon Hw Hlen Hlat Hlon).
Qed.

Lemma local_point_on_degree_raster_witness :
  raster_width degree_world = 360 /\
  Z.of_nat (length (raster degree_world)) = 360 * 180 /\
  (-90 <= 90 <= 90)%Q /\ (-180 <= 180 <= 180)%Q /\
  on_grid 90 /\ on_grid 180 /\
  (let nlon := normalize 180 (-180) 360 in
   let cx := longitude_to_cell_x degree_world nlon in
   let cy := latitude_to_cell_y degree_world 90 in
   Forall binary64 (local_point_steps degree_world 90 180) /\
   ((nlon == 180 \/ (180 == 180 /\ nlon == -180)) /\
    0 <= nlon - (-180 + inject_Z cx) < 1 /\
    0 <= 90 - (90 - inject_Z (cy + 1)) <= 1 /\
    (90 - (90 - inject_Z (cy + 1)) == 1 -> 90 == 90))%Q /\
   longitude_to_local_x degree_world cx nlon = Qfloor ((nlon - (-180 + inject_Z cx)) * 65535)%Q /\
   latitude_to_local_y degree_world cy 90 = Qfloor ((90 - (90 - inject_Z (cy + 1))) * 65535)%Q /\
   0 <= longitude_to_local_x degree_world cx nlon <= 65534 /\
   0 <= latitude_to_local_y degree_world cy 90 <= 65535).
Proof.
  assert (Hw : raster_width degree_world = 360) by reflexivity.
  assert (Hl : Z.of_nat (length (raster degree_world)) = 360 * 180).
  { unfold degree_world. cbn [raster]. rewrite repeat_length, Nat2Z.inj_mul. reflexivity. }
  assert (Ha : (-90 <= 90 <= 90)%Q) by (split; vm_compute; discriminate).
  assert (Ho : (-180 <= 180 <= 180)%Q) by (split; vm_compute; discriminate).
  assert (G1 : on_grid 90) by (exists (90 * 2 ^ 28); reflexivity).
  assert (G2 : on_grid 180) by (exists (180 * 2 ^ 28); reflexivity).
  split; [exact Hw |]. split; [exact Hl |]. split; [exact Ha |]. split; [exact Ho |].
  split; [exact G1 |]. split; [exact G2 |].
  exact (local_point_on_degree_raster degree_world 90 180 Hw Hl Ha Ho G1 G2).
Defined.

(** ** The cell enumeration walks the rectangle column by column *)

Section Enumeration.
Variable cb : CountryBoundaries.
Variables min_x min_y steps_x steps_y : Z.
Hypothesis Hw : raster_width cb <> 0.
Hypothesis Hsy : 0 <= steps_y.
Hypothesis Hk : forall xs ys, 0 <= xs <= steps_x -> 0 <= ys <= steps_y ->
  (min_y + ys) * raster_width cb + (min_x + xs) mod raster_width cb
  < Z.of_nat (length (raster cb)).

Let pos (xs ys : Z) : Z := (min_y + ys) * raster_width cb + (min_x + xs) mod raster_width cb.
Let column (xs : Z) : list Z := map (pos xs) (seqZ 0 (steps_y + 1)).
Let state (xs ys : Z) : CellsIter := mkCellsIter min_x min_y steps_x steps_y xs ys.
Let yielded (l : list Z) : list (option (option Z)) := map (fun k => Some (Some k)) l.

Lemma run_S (n : nat) (it : CellsIter) :
  run cb (S n) it = (cells_next cb it).1 :: run cb n (cells_next cb it).2.
Proof. cbn [run]. destruct (cells_next cb it). reflexivity. Qed.

Lemma next_state (xs ys : Z) :
  0 <= xs <= steps_x -> 0 <= ys <= steps_y ->
  cells_next cb (state xs ys)
  = (Some (Some (pos xs ys)), if ys <? steps_y then state xs (ys + 1) else state (xs + 1) 0).
Proof.
  intros Hx Hy. unfold cells_next, state, pos. cbn [x_step y_step it_steps_x
    it_steps_y it_min_x it_min_y].
  rewrite (proj2 (Z.eqb_neq _ _) Hw).
  rewrite (proj2 (Z.leb_le xs steps_x)), (proj2 (Z.leb_le ys steps_y)) by lia. cbn [andb].
  rewrite (proj2 (Z.ltb_lt _ _)) by (apply Hk; lia).
  destruct (ys <? steps_y); reflexivity.
Qed.

Lemma run_column (xs : Z) (n : nat) (m : nat) (ys : Z) :
  0 <= xs <= steps_x -> 0 <= ys <= steps_y -> m = Z.to_nat (steps_y - ys) ->
  run cb (S m + n) (state xs ys)
  = yielded (map (pos xs) (seqZ ys (steps_y - ys + 1))) ++ run cb n (state (xs + 1) 0).
Proof.
  intros Hx. revert ys. induction m as [| m IH]; intros ys Hy Hm.
  - assert (ys = steps_y) as -> by lia.
    rewrite Nat.add_succ_l, Nat.add_0_l, run_S, next_state by lia. cbn [fst snd].
    rewrite Z.ltb_irrefl.
    replace (steps_y - steps_y + 1) with 1 by lia. rewrite seqZ_cons by lia.
    rewrite seqZ_nil by lia. reflexivity.
  - rewrite Nat.add_succ_l, run_S, next_state by lia. cbn [fst snd].
    rewrite (proj2 (Z.ltb_lt ys steps_y)) by lia.
    rewrite (IH (ys + 1)) by lia.
    rewrite (seqZ_cons ys) by lia.
    replace (Z.pred (steps_y - ys + 1)) with (steps_y - (ys + 1) + 1) by lia.
    replace (Z.succ ys) with (ys + 1) by lia. reflexivity.
Qed.

Lemma run_columns (k : nat) (xs : Z) :
  0 <= xs -> k = Z.to_nat (steps_x + 1 - xs) ->
  run cb (Z.to_nat ((steps_x + 1 - xs) * (steps_y + 1)) + 1) (state xs 0)
  = yielded (seqZ xs (steps_x + 1 - xs) ≫= column) ++ [Some None].
Proof.
  revert xs. induction k as [| k IH]; intros xs Hx Hk'.
  - replace (Z.to_nat ((steps_x + 1 - xs) * (steps_y + 1))) with 0%nat by nia.
    rewrite seqZ_nil by lia. cbn [Nat.add]. rewrite run_S. unfold cells_next, state.
    cbn [x_step y_step it_steps_x it_steps_y it_min_x it_min_y].
    rewrite (proj2 (Z.leb_gt xs steps_x)) by lia. reflexivity.
  - replace (Z.to_nat ((steps_x + 1 - xs) * (steps_y + 1)) + 1)%nat
      with (S (Z.to_nat (steps_y - 0)) + (Z.to_nat ((steps_x + 1 - (xs + 1)) * (steps_y + 1)) + 1))%nat
      by nia.
    rewrite (run_column xs _ (Z.to_nat (steps_y - 0)) 0) by lia.
    rewrite (IH (xs + 1)) by lia.
    rewrite (seqZ_cons xs) by lia. rewrite bind_cons.
    replace (Z.pred (steps_x + 1 - xs)) with (steps_x + 1 - (xs + 1)) by lia.
    replace (Z.succ xs) with (xs + 1) by lia.
    unfold yielded, column. rewrite map_app, app_assoc.
    replace (steps_y - 0 + 1) with (steps_y + 1) by lia. reflexivity.
Qed.

Lemma run_cells :
  0 <= steps_x ->
  run cb (cells_fuel (state 0 0)) (state 0 0)
  = yielded (column_major (raster_width cb) min_x min_y steps_x steps_y) ++ [Some None].
Proof.
  intros Hx. unfold cells_fuel. cbn [it_steps_x it_steps_y state].
  rewrite <- Nat.add_1_r.
  replace (steps_x + 1) with (steps_x + 1 - 0) at 1 by lia.
  rewrite (run_columns (Z.to_nat (steps_x + 1 - 0)) 0) by lia.
  replace (steps_x + 1 - 0) with (steps_x + 1) by lia. reflexivity.
Qed.

End Enumeration.

Lemma collect_run (cb : CountryBoundaries) (l : list Z) :
  forall n it, run cb n it = map (fun k => Some (Some k)) l ++ [Some None] ->
  collect cb n it = Some l.
Proof.
  induction l as [| k l IH]; intros [| n] it H.
  - discriminate H.
  - rewrite run_S in H. cbn [collect].
    destruct (cells_next cb it) as [r it']. cbn [fst snd] in H.
    injection H as H1 _. subst r. reflexivity.
  - discriminate H.
  - rewrite run_S in H. cbn [collect].
    destruct (cells_next cb it) as [r it']. cbn [fst snd] in H.
    injection H as H1 H2. subst r.
    rewrite (IH n it' H2). reflexivity.
Qed.

Lemma cell_y_antitone (cb : CountryBoundaries) (h : Z) (lat1 lat2 : Q) :
  1 <= raster_width cb -> 1 <= h -> Z.of_nat (length (raster cb)) = raster_width cb * h ->
  (lat1 <= lat2)%Q -> latitude_to_cell_y cb lat2 <= latitude_to_cell_y cb lat1.
Proof.
  intros Hw Hh Hlen Hl. unfold latitude_to_cell_y, saturating_sub, f64_to_usize.
  rewrite (raster_height_eq cb h Hw Hlen).
  assert (Qceiling (inject_Z h * (90 - lat2) / 180) <= Qceiling (inject_Z h * (90 - lat1) / 180)).
  { apply Qceiling_resp_le. unfold Qdiv. apply Qmult_le_compat_r; [| discriminate].
    apply Qmult_le_l; [| lra].
    change 0%Q with (inject_Z 0). rewrite <- Zlt_Qlt. lia. }
  lia.
Qed.

(** C3 (amended): for a box whose southern latitude is at least -90 and at
    most its northern one, on a raster of width [w] >= 1 and [w * h] cells,
    [cells] starts a fresh iterator (steps 0, 0) on the columns [min_x ..
    max_x] (wrapping modulo [w] when [min_x > max_x]) and the rows [min_y ..
    max_y]; it yields the rectangle in column-major order, each column from
    [min_y] to [max_y], columns eastwards from [min_x], all
    [(steps_x + 1) * (steps_y + 1)] positions in range, then [None]. *)
Theorem cells_column_major (oc : bool) (cb : CountryBoundaries) (h : Z) (bounds : BoundingBox)
    (Hw : 1 <= raster_width cb) (Hh : 1 <= h)
    (Hlen : Z.of_nat (length (raster cb)) = raster_width cb * h)
    (Hlat : (-90 <= min_latitude bounds <= max_latitude bounds)%Q) :
  let min_x := longitude_to_cell_x cb (normalize (min_longitude bounds) (-180) 360) in
  let max_x := longitude_to_cell_x cb (normalize (max_longitude bounds) (-180) 360) in
  let min_y := latitude_to_cell_y cb (max_latitude bounds) in
  let max_y := latitude_to_cell_y cb (min_latitude bounds) in
  let steps_x := if max_x <? min_x then raster_width cb - min_x + max_x else max_x - min_x in
  let it := mkCellsIter min_x min_y steps_x (max_y - min_y) 0 0 in
  cells oc cb bounds = Some it /\
  run cb (cells_fuel it) it
  = map (fun k => Some (Some k))
      (column_major (raster_width cb) min_x min_y steps_x (max_y - min_y)) ++ [Some None] /\
  visited_positions oc cb bounds
  = Some (column_major (raster_width cb) min_x min_y steps_x (max_y - min_y)).
Proof.
  intros min_x max_x min_y max_y steps_x it.
  pose proof (cell_x_range cb (normalize (min_longitude bounds) (-180) 360) Hw) as Rx1.
  pose proof (cell_x_range cb (normalize (max_longitude bounds) (-180) 360) Hw) as Rx2.
  fold min_x in Rx1. fold max_x in Rx2.
  pose proof (cell_y_range cb h (max_latitude bounds) Hw Hh Hlen ltac:(lra)) as Ry1.
  pose proof (cell_y_range cb h (min_latitude bounds) Hw Hh Hlen ltac:(lra)) as Ry2.
  pose proof (cell_y_antitone cb h _ _ Hw Hh Hlen (proj2 Hlat)) as Mono.
  fold min_y in Ry1, Mono. fold max_y in Ry2, Mono.
  assert (Sx : 0 <= steps_x <= raster_width cb - 1)
    by (unfold steps_x; destruct (Z.ltb_spec max_x min_x); lia).
  assert (Hc : cells oc cb bounds = Some it).
  { unfold cells, usize_sub. fold min_x max_x min_y max_y.
    rewrite (proj2 (Z.leb_le min_y max_y)) by lia. reflexivity. }
  assert (Hr : run cb (cells_fuel it) it
               = map (fun k => Some (Some k))
                   (column_major (raster_width cb) min_x min_y steps_x (max_y - min_y))
                 ++ [Some None]).
  { apply run_cells; [lia | lia | | lia].
    intros xs ys Hxs Hys.
    pose proof (Z.mod_pos_bound (min_x + xs) (raster_width cb) ltac:(lia)). nia. }
  split; [exact Hc |]. split; [exact Hr |].
  unfold visited_positions. rewrite Hc. cbn [mbind option_bind].
  apply collect_run. exact Hr.
Qed.

Lemma cells_column_major_witness :
  1 <= raster_width world_2x2 /\ 1 <= 2 /\
  Z.of_nat (length (raster world_2x2)) = raster_width world_2x2 * 2 /\
  (-90 <= min_latitude box_around_origin <= max_latitude box_around_origin)%Q /\
  visited_positions true world_2x2 box_around_origin = Some (column_major 2 0 0 1 1) /\
  column_major 2 0 0 1 1 = [0; 2; 1; 3].
Proof.
  assert (Hw : 1 <= raster_width world_2x2) by (vm_compute; discriminate).
  assert (Hh : 1 <= 2) by lia.
  assert (Hl : Z.of_nat (length (raster world_2x2)) = raster_width world_2x2 * 2)
    by reflexivity.
  assert (Ha : (-90 <= min_latitude box_around_origin <= max_latitude box_around_origin)%Q)
    by (split; vm_compute; discriminate).
  split; [exact Hw |]. split; [exact Hh |]. split; [exact Hl |]. split; [exact Ha |].
  split; [| reflexivity].
  destruct (cells_column_major true world_2x2 2 box_around_origin Hw Hh Hl Ha)
    as (_ & _ & E).
  exact E.
Defined.

(** ** The ring test computes a winding number *)

Lemma cross_swap (a b p : Point) : cross b a p = - cross a b p.
Proof. unfold cross. ring. Qed.

Lemma edge_contrib_swap (p a b : Point) : edge_contrib p b a = - edge_contrib p a b.
Proof.
  unfold edge_contrib. rewrite cross_swap.
  destruct (Z.leb_spec (y a) (y p)), (Z.leb_spec (y b) (y p)),
    (Z.ltb_spec (y p) (y a)), (Z.ltb_spec (y p) (y b)); cbn; try lia;
  destruct (Z.ltb_spec 0 (cross a b p)), (Z.ltb_spec (- cross a b p) 0),
    (Z.ltb_spec 0 (- cross a b p)), (Z.ltb_spec (cross a b p) 0); lia.
Qed.

Lemma path_winding_cons2 (p a b : Point) (t : list Point) :
  path_winding p (a :: b :: t) = edge_contrib p a b + path_winding p (b :: t).
Proof. reflexivity. Qed.

Lemma path_winding_app (p a : Point) (l1 l2 : list Point) :
  path_winding p (l1 ++ a :: l2) = path_winding p (l1 ++ [a]) + path_winding p (a :: l2).
Proof.
  induction l1 as [| b l1 IH]; [cbn; lia |].
  destruct l1 as [| c l1]; cbn [app] in *.
  - rewrite !path_winding_cons2. cbn [path_winding]. lia.
  - rewrite !path_winding_cons2, IH. lia.
Qed.

Lemma path_winding_rev (p : Point) (l : list Point) :
  path_winding p (rev l) = - path_winding p l.
Proof.
  induction l as [| a t IH]; [reflexivity |].
  destruct t as [| b t]; [reflexivity |].
  change (rev (a :: b :: t)) with ((rev t ++ [b]) ++ [a]).
  change (rev (b :: t)) with (rev t ++ [b]) in IH.
  rewrite <- app_assoc. cbn [app]. rewrite path_winding_app, IH.
  rewrite !path_winding_cons2, (edge_contrib_swap p a b). cbn [path_winding]. lia.
Qed.

(** A ring's winding number is that of the closed path from its first
    vertex round to the first vertex again. *)
Lemma winding_number_closed (p a : Point) (u : list Point) :
  winding_number p (a :: u) = path_winding p (a :: u ++ [a]).
Proof.
  unfold winding_number. destruct u as [| b u] using rev_ind; [reflexivity |].
  rewrite app_comm_cons, last_snoc.
  rewrite <- app_assoc. cbn [app].
  replace (a :: u ++ [b; a]) with ((a :: u) ++ b :: [a]) by reflexivity.
  rewrite path_winding_app. cbn [app]. rewrite !path_winding_cons2. cbn [path_winding]. lia.
Qed.

Lemma edge_contrib_bounds (p a b : Point) : -1 <= edge_contrib p a b <= 1.
Proof.
  unfold edge_contrib.
  destruct (y a <=? y p), (y p <? y b), (y b <=? y p),
    (0 <? cross a b p), (cross a b p <? 0); lia.
Qed.

Lemma winding_step_exact (oc : bool) (p vi vj : Point) (wn : Z) :
  point_ok p -> point_ok vi -> point_ok vj -> - 2 ^ 31 < wn < 2 ^ 31 - 1 ->
  winding_step oc p vi vj wn = Some (wn + edge_contrib p vi vj).
Proof.
  intros Hp Hi Hj Hw. unfold winding_step, edge_contrib.
  rewrite is_left_exact by assumption. fold (cross vi vj p). cbn [mbind option_bind].
  destruct (y vi <=? y p), (y p <? y vj), (y vj <=? y p),
    (0 <? cross vi vj p), (cross vi vj p <? 0);
    try (f_equal; lia); apply signed_op_in; cbn; lia.
Qed.

Lemma winding_loop_sum (oc : bool) (p : Point) (v : list Point)
    (Hp : point_ok p) (Hv : Forall point_ok v) :
  forall m k i vi wn, (k + m = length v)%nat -> v !! i = Some vi ->
  Z.abs wn + Z.of_nat m < 2 ^ 31 ->
  winding_loop oc p v (map Z.of_nat (seq k m)) (Z.of_nat i) wn
  = Some (wn + path_winding p (vi :: drop k v)).
Proof.
  induction m as [| m IH]; intros k i vi wn Hk Hi Hw.
  - cbn. rewrite drop_ge by lia. cbn. f_equal; lia.
  - destruct (lookup_lt_is_Some_2 v k) as [vj Hj]; [lia |].
    cbn [seq map winding_loop]. unfold index.
    rewrite (proj2 (Z.leb_le 0 (Z.of_nat i))) by lia.
    rewrite (proj2 (Z.leb_le 0 (Z.of_nat k))) by lia.
    rewrite !Nat2Z.id, Hi, Hj. cbn [mbind option_bind].
    rewrite winding_step_exact.
    2: exact Hp.
    2: exact (proj1 (Forall_lookup _ _) Hv _ _ Hi).
    2: exact (proj1 (Forall_lookup _ _) Hv _ _ Hj).
    2: lia.
    cbn [mbind option_bind].
    pose proof (edge_contrib_bounds p vi vj).
    rewrite (IH (S k) k vj); [| lia | exact Hj | lia].
    rewrite (drop_S v vj k Hj), path_winding_cons2. f_equal. lia.
Qed.

Lemma pip_eq_winding (oc : bool) (p : Point) (v : list Point) :
  point_ok p -> Forall point_ok v -> v <> [] -> Z.of_nat (length v) < 2 ^ 31 ->
  is_point_in_polygon oc p v = Some (negb (winding_number p v =? 0)).
Proof.
  intros Hp Hv Hne Hlen. unfold is_point_in_polygon, usize_sub.
  assert (Hl : (1 <= length v)%nat) by (destruct v; [congruence | cbn; lia]).
  rewrite (proj2 (Z.leb_le 1 (Z.of_nat (length v)))) by lia.
  cbn [mbind option_bind]. unfold range_usize. rewrite Nat2Z.id.
  unfold winding_number. rewrite last_lookup.
  destruct (lookup_lt_is_Some_2 v (pred (length v))) as [l Hlast]; [lia |].
  rewrite Hlast.
  replace (Z.of_nat (length v) - 1) with (Z.of_nat (pred (length v))) by lia.
  rewrite (winding_loop_sum oc p v Hp Hv (length v) 0 (pred (length v)) l 0)
    by (cbn; lia || exact Hlast).
  reflexivity.
Qed.

Lemma eqb_opp_0 (w : Z) : (- w =? 0) = (w =? 0).
Proof. destruct (Z.eqb_spec w 0), (Z.eqb_spec (- w) 0); lia. Qed.

Lemma path_winding_zero (p : Point) (l : list Point) :
  (forall a b, In a l -> In b l -> edge_contrib p a b = 0) -> path_winding p l = 0.
Proof.
  induction l as [| a t IH]; intros H; [reflexivity |].
  destruct t as [| b t]; [reflexivity |].
  rewrite path_winding_cons2, H by (cbn; auto).
  rewrite IH; [reflexivity |]. intros c d Hc Hd. apply H; right; assumption.
Qed.

Lemma winding_number_zero (p : Point) (v : list Point) :
  (forall a b, In a v -> In b v -> edge_contrib p a b = 0) -> winding_number p v = 0.
Proof.
  intros H. unfold winding_number. destruct (list.last v) as [l |] eqn:E; [| reflexivity].
  apply path_winding_zero. intros a b Ha Hb.
  assert (Hl : In l v).
  { rewrite last_lookup in E. apply list_elem_of_In. eapply list_elem_of_lookup_2. exact E. }
  apply H; destruct Ha as [<- | Ha]; auto; destruct Hb as [<- | Hb]; auto.
Qed.

(** ** Properties of the polygon code beyond the spec's claims *)

(** [is_left] is antisymmetric in the edge's end points and vanishes at
    them, for all 16-bit points. *)
Theorem is_left_antisymmetric (oc : bool) (p0 p1 p : Point)
    (H0 : point_ok p0) (H1 : point_ok p1) (H : point_ok p) :
  is_left oc p1 p0 p = Z.opp <$> is_left oc p0 p1 p /\
  is_left oc p0 p1 p0 = Some 0 /\ is_left oc p0 p1 p1 = Some 0.
Proof.
  rewrite !is_left_exact by assumption. cbn. split; [f_equal; ring |].
  split; f_equal; ring.
Qed.

Lemma is_left_antisymmetric_witness :
  point_ok (mkPoint 0 0) /\ point_ok (mkPoint 10 0) /\ point_ok (mkPoint 3 7) /\
  is_left true (mkPoint 10 0) (mkPoint 0 0) (mkPoint 3 7)
  = Z.opp <$> is_left true (mkPoint 0 0) (mkPoint 10 0) (mkPoint 3 7).
Proof.
  assert (A : point_ok (mkPoint 0 0)) by (unfold point_ok, u16_ok; cbn; lia).
  assert (B : point_ok (mkPoint 10 0)) by (unfold point_ok, u16_ok; cbn; lia).
  assert (C : point_ok (mkPoint 3 7)) by (unfold point_ok, u16_ok; cbn; lia).
  split; [exact A |]. split; [exact B |]. split; [exact C |].
  exact (proj1 (is_left_antisymmetric true _ _ _ A B C)).
Defined.

(** For a non-empty ring of 16-bit points with fewer than 2^31 vertices,
    [is_point_in_polygon] never panics, in either build profile, and answers
    whether the winding number of the closed ring around the point is
    non-zero. *)
Theorem is_point_in_polygon_winding_number (oc : bool) (p : Point) (v : list Point)
    (Hp : point_ok p) (Hv : Forall point_ok v) (Hne : v <> [])
    (Hlen : Z.of_nat (length v) < 2 ^ 31) :
  is_point_in_polygon oc p v = Some (negb (winding_number p v =? 0)).
Proof. apply pip_eq_winding; assumption. Qed.

Lemma is_point_in_polygon_winding_number_witness :
  point_ok (mkPoint 5 5) /\ Forall point_ok big_square /\ big_square <> [] /\
  Z.of_nat (length big_square) < 2 ^ 31 /\
  is_point_in_polygon true (mkPoint 5 5) big_square
  = Some (negb (winding_number (mkPoint 5 5) big_square =? 0)) /\
  winding_number (mkPoint 5 5) big_square = -1.
Proof.
  assert (Hp : point_ok (mkPoint 5 5)) by (unfold point_ok, u16_ok; cbn; lia).
  assert (Hv : Forall point_ok big_square)
    by (repeat constructor; unfold point_ok, u16_ok; cbn; lia).
  assert (Hne : big_square <> []) by discriminate.
  assert (Hl : Z.of_nat (length big_square) < 2 ^ 31) by (cbn; lia).
  split; [exact Hp |]. split; [exact Hv |]. split; [exact Hne |]. split; [exact Hl |].
  split; [exact (is_point_in_polygon_winding_number true _ _ Hp Hv Hne Hl) | reflexivity].
Defined.

(** Reversing the order of a ring's vertices does not change whether a
    point is in it (for non-empty rings of 16-bit points with fewer than
    2^31 vertices). *)
Theorem is_point_in_polygon_reverse (oc : bool) (p : Point) (v : list Point)
    (Hp : point_ok p) (Hv : Forall point_ok v) (Hne : v <> [])
    (Hlen : Z.of_nat (length v) < 2 ^ 31) :
  is_point_in_polygon oc p (rev v) = is_point_in_polygon oc p v.
Proof.
  assert (Hv' : Forall point_ok (rev v)) by (apply Forall_rev; exact Hv).
  assert (Hne' : rev v <> [])
    by (intros E; apply Hne; rewrite <- (rev_involutive v), E; reflexivity).
  rewrite !pip_eq_winding by (try rewrite length_rev; assumption).
  destruct v as [| a u]; [congruence |].
  assert (E : winding_number p (rev (a :: u)) = - winding_number p (a :: u)).
  { rewrite winding_number_closed. cbn [rev]. unfold winding_number at 1.
    rewrite last_snoc, <- path_winding_rev. f_equal.
    cbn [rev]. rewrite rev_app_distr. reflexivity. }
  rewrite E, eqb_opp_0. reflexivity.
Qed.

Lemma is_point_in_polygon_reverse_witness :
  point_ok (mkPoint 5 5) /\ Forall point_ok big_square /\ big_square <> [] /\
  Z.of_nat (length big_square) < 2 ^ 31 /\
  is_point_in_polygon true (mkPoint 5 5) (rev big_square)
  = is_point_in_polygon true (mkPoint 5 5) big_square.
Proof.
  assert (Hp : point_ok (mkPoint 5 5)) by (unfold point_ok, u16_ok; cbn; lia).
  assert (Hv : Forall point_ok big_square)
    by (repeat constructor; unfold point_ok, u16_ok; cbn; lia).
  assert (Hne : big_square <> []) by discriminate.
  assert (Hl : Z.of_nat (length big_square) < 2 ^ 31) by (cbn; lia).
  split; [exact Hp |]. split; [exact Hv |]. split; [exact Hne |]. split; [exact Hl |].
  exact (is_point_in_polygon_reverse true _ _ Hp Hv Hne Hl).
Defined.

(** Which vertex a ring starts at does not change whether a point is in
    it: moving the first vertex to the end keeps the answer (for rings of
    16-bit points with fewer than 2^31 vertices). *)
Theorem is_point_in_polygon_rotate (oc : bool) (p a : Point) (u : list Point)
    (Hp : point_ok p) (Hv : Forall point_ok (a :: u))
    (Hlen : Z.of_nat (S (length u)) < 2 ^ 31) :
  is_point_in_polygon oc p (u ++ [a]) = is_point_in_polygon oc p (a :: u).
Proof.
  assert (Hv' : Forall point_ok (u ++ [a])).
  { apply Forall_cons in Hv as [Ha Hu]. apply Forall_app; split; [exact Hu |].
    constructor; [exact Ha | constructor]. }
  rewrite !pip_eq_winding; try assumption.
  - rewrite winding_number_closed. unfold winding_number. rewrite last_snoc. reflexivity.
  - discriminate.
  - destruct u; discriminate.
  - rewrite length_app. cbn [length]. lia.
Qed.

Lemma is_point_in_polygon_rotate_witness :
  point_ok (mkPoint 0 5) /\ Forall point_ok big_square /\
  Z.of_nat (S (length (tail big_square))) < 2 ^ 31 /\
  is_point_in_polygon true (mkPoint 0 5) (tail big_square ++ [mkPoint 0 0])
  = is_point_in_polygon true (mkPoint 0 5) big_square.
Proof.
  assert (Hp : point_ok (mkPoint 0 5)) by (unfold point_ok, u16_ok; cbn; lia).
  assert (Hv : Forall point_ok big_square)
    by (repeat constructor; unfold point_ok, u16_ok; cbn; lia).
  assert (Hl : Z.of_nat (S (length (tail big_square))) < 2 ^ 31) by (cbn; lia).
  split; [exact Hp |]. split; [exact Hv |]. split; [exact Hl |].
  exact (is_point_in_polygon_rotate true (mkPoint 0 5) (mkPoint 0 0) (tail big_square)
           Hp Hv Hl).
Defined.

(** A point at or above the highest vertex, below the lowest vertex, or at
    or right of the rightmost vertex of a ring is not in it (for non-empty
    rings of 16-bit points with fewer than 2^31 vertices); in particular
    nothing on the top or right edge of the ring's bounding box counts. *)
Theorem is_point_in_polygon_outside (oc : bool) (p : Point) (v : list Point)
    (Hp : point_ok p) (Hv : Forall point_ok v) (Hne : v <> [])
    (Hlen : Z.of_nat (length v) < 2 ^ 31)
    (Hout : Forall (fun q => y q <= y p) v \/ Forall (fun q => y p < y q) v \/
            Forall (fun q => x q <= x p) v) :
  is_point_in_polygon oc p v = Some false.
Proof.
  rewrite pip_eq_winding by assumption.
  rewrite winding_number_zero; [reflexivity |].
  intros a b Ha Hb. unfold edge_contrib, cross.
  destruct Hout as [H | [H | H]]; rewrite List.Forall_forall in H;
    pose proof (H a Ha); pose proof (H b Hb).
  - rewrite (proj2 (Z.leb_le (y a) (y p))), (proj2 (Z.ltb_ge (y p) (y b))) by lia.
    reflexivity.
  - rewrite (proj2 (Z.leb_gt (y a) (y p))), (proj2 (Z.leb_gt (y b) (y p))) by lia.
    reflexivity.
  - destruct (Z.leb_spec (y a) (y p)), (Z.ltb_spec (y p) (y b)),
      (Z.leb_spec (y b) (y p)); cbn; try reflexivity; try lia.
    + rewrite (proj2 (Z.ltb_ge 0 _)); [reflexivity |].
      assert (0 <= (x p - x b) * (y p - y a)) by nia.
      assert (0 <= (x p - x a) * (y b - y p)) by nia. nia.
    + rewrite (proj2 (Z.ltb_ge _ 0)); [reflexivity |].
      assert (0 <= (x p - x b) * (y a - y p)) by nia.
      assert (0 <= (x p - x a) * (y p - y b)) by nia. nia.
Qed.

Lemma is_point_in_polygon_outside_witness :
  point_ok (mkPoint 10 5) /\ Forall point_ok big_square /\ big_square <> [] /\
  Z.of_nat (length big_square) < 2 ^ 31 /\
  (Forall (fun q => y q <= 5) big_square \/ Forall (fun q => 5 < y q) big_square \/
   Forall (fun q => x q <= 10) big_square) /\
  is_point_in_polygon true (mkPoint 10 5) big_square = Some false.
Proof.
  assert (Hp : point_ok (mkPoint 10 5)) by (unfold point_ok, u16_ok; cbn; lia).
  assert (Hv : Forall point_ok big_square)
    by (repeat constructor; unfold point_ok, u16_ok; cbn; lia).
  assert (Hne : big_square <> []) by discriminate.
  assert (Hl : Z.of_nat (length big_square) < 2 ^ 31) by (cbn; lia).
  assert (Ho : Forall (fun q => y q <= 5) big_square \/ Forall (fun q => 5 < y q) big_square \/
               Forall (fun q => x q <= 10) big_square)
    by (right; right; repeat constructor; cbn; lia).
  do 5 (split; [assumption |]).
  exact (is_point_in_polygon_outside true (mkPoint 10 5) big_square Hp Hv Hne Hl Ho).
Defined.

Lemma covers_eq_sum (oc : bool) (mp : Multipolygon) (p : Point) :
  Z.of_nat (length (outer mp)) < 2 ^ 31 -> Z.of_nat (length (inner mp)) < 2 ^ 31 ->
  covers oc mp p = (fun s => 0 <? s) <$> signed_sum oc mp p.
Proof.
  intros Ho Hi. unfold covers, signed_sum.
  rewrite count_outer_sum by lia.
  destruct (mapM (is_point_in_polygon oc p) (outer mp)) as [fo |] eqn:Efo;
    cbn; [| reflexivity].
  pose proof (mapM_length _ _ _ Efo). pose proof (count_true_bounds fo).
  rewrite count_inner_sum by lia.
  destruct (mapM (is_point_in_polygon oc p) (inner mp)); reflexivity.
Qed.

(** A multipolygon without outer rings covers no point: [covers] returns
    false or panics (for fewer than 2^31 inner rings). *)
Theorem covers_without_outer (oc : bool) (inner_rings : list (list Point)) (p : Point)
    (Hi : Z.of_nat (length inner_rings) < 2 ^ 31) :
  covers oc (mkMultipolygon [] inner_rings) p <> Some true.
Proof.
  rewrite covers_eq_sum by (cbn; lia). unfold signed_sum. cbn [outer inner mapM].
  cbn [mbind option_bind mret option_ret].
  destruct (mapM (is_point_in_polygon oc p) inner_rings) as [fi |]; cbn; [| discriminate].
  pose proof (count_true_bounds fi). change (count_true []) with 0.
  destruct (Z.ltb_spec 0 (0 - count_true fi)); [lia | discriminate].
Qed.

Lemma covers_without_outer_witness :
  Z.of_nat (length [hole]) < 2 ^ 31 /\
  covers true (mkMultipolygon [] [hole]) (mkPoint 5 5) <> Some true /\
  covers true (mkMultipolygon [] [hole]) (mkPoint 5 5) = Some false.
Proof.
  assert (H : Z.of_nat (length [hole]) < 2 ^ 31) by (cbn; lia).
  split; [exact H |]. split; [exact (covers_without_outer true [hole] (mkPoint 5 5) H) |].
  reflexivity.
Defined.

(** Adding a ring never flips [covers] the wrong way (for fewer than 2^31
    - 1 outer and inner rings): with one more outer ring a covered point is
    not reported as uncovered, and with one more inner ring an uncovered
    point is not reported as covered. *)
Theorem covers_extra_ring (oc : bool) (o i : list (list Point)) (r : list Point) (p : Point)
    (Ho : Z.of_nat (length o) < 2 ^ 31 - 1) (Hi : Z.of_nat (length i) < 2 ^ 31 - 1) :
  (covers oc (mkMultipolygon o i) p = Some true ->
   covers oc (mkMultipolygon (r :: o) i) p <> Some false) /\
  (covers oc (mkMultipolygon o i) p = Some false ->
   covers oc (mkMultipolygon o (r :: i)) p <> Some true).
Proof.
  rewrite !covers_eq_sum by (cbn [outer inner length]; lia).
  unfold signed_sum. cbn [outer inner mapM].
  destruct (is_point_in_polygon oc p r) as [b |];
    destruct (mapM (is_point_in_polygon oc p) o) as [fo |];
    destruct (mapM (is_point_in_polygon oc p) i) as [fi |]; cbn;
    try (split; intros _; discriminate).
  rewrite !count_true_cons.
  split; intros H E; injection H as H; injection E as E; destruct b;
    destruct (Z.ltb_spec 0 (count_true fo - count_true fi)); try discriminate;
    revert E; [destruct (Z.ltb_spec 0 (1 + count_true fo - count_true fi)) |
               destruct (Z.ltb_spec 0 (0 + count_true fo - count_true fi)) |
               destruct (Z.ltb_spec 0 (count_true fo - (1 + count_true fi))) |
               destruct (Z.ltb_spec 0 (count_true fo - (0 + count_true fi)))];
    try discriminate; lia.
Qed.

Lemma covers_extra_ring_witness :
  Z.of_nat (length [big_square]) < 2 ^ 31 - 1 /\ Z.of_nat (length [hole]) < 2 ^ 31 - 1 /\
  (covers true (mkMultipolygon [big_square] [hole]) (mkPoint 5 5) = Some false ->
   covers true (mkMultipolygon [big_square] [small_square; hole]) (mkPoint 5 5) <> Some true) /\
  covers true (mkMultipolygon [big_square] [hole]) (mkPoint 5 5) = Some false.
Proof.
  assert (Ho : Z.of_nat (length [big_square]) < 2 ^ 31 - 1) by (cbn; lia).
  assert (Hi : Z.of_nat (length [hole]) < 2 ^ 31 - 1) by (cbn; lia).
  split; [exact Ho |]. split; [exact Hi |]. split; [| reflexivity].
  exact (proj2 (covers_extra_ring true [big_square] [hole] small_square (mkPoint 5 5) Ho Hi)).
Defined.

(** ** [normalize] *)

Lemma f64_trunc_bounds (q : Q) : (-1 < q - inject_Z (f64_trunc q) < 1)%Q.
Proof.
  destruct q as [n d]. unfold f64_trunc; cbn [Qnum Qden].
  pose proof (Z.quot_rem n (Zpos d) ltac:(lia)) as E.
  pose proof (Z.rem_bound_abs n (Zpos d) ltac:(lia)) as B.
  unfold Qlt, Qminus, Qplus, Qopp, inject_Z; cbn [Qnum Qden].
  split; nia.
Qed.

Lemma f64_rem_bounds (a b : Q) : (0 < b)%Q -> (- b < f64_rem a b < b)%Q.
Proof.
  intros Hb. unfold f64_rem.
  pose proof (f64_trunc_bounds (a / b)) as [L U].
  set (t := inject_Z (f64_trunc (a / b))) in *.
  assert (E : (a - b * t == b * (a / b - t))%Q) by (field; intros H; rewrite H in Hb; discriminate).
  rewrite E.
  assert (b * -1 < b * (a / b - t))%Q by (apply Qmult_lt_l; assumption).
  assert (b * (a / b - t) < b * 1)%Q by (apply Qmult_lt_l; assumption).
  split; lra.
Qed.

Lemma f64_rem_shift (a b : Q) : exists k : Z, (f64_rem a b == a + inject_Z k * b)%Q.
Proof.
  exists (- f64_trunc (a / b)). unfold f64_rem. rewrite inject_Z_opp. ring.
Qed.

Lemma f64_trunc_small (q : Q) : (-1 < q < 1)%Q -> f64_trunc q = 0.
Proof.
  destruct q as [n d]. unfold Qlt; cbn. intros [H1 H2].
  unfold f64_trunc; cbn. apply Z.quot_small_iff; lia.
Qed.

Lemma f64_rem_self (a b : Q) : (0 < b)%Q -> (- b < a < b)%Q -> (f64_rem a b == a)%Q.
Proof.
  intros Hb [H1 H2]. unfold f64_rem.
  rewrite (f64_trunc_small (a / b)); [cbn; ring |].
  split.
  - apply Qlt_shift_div_l; [exact Hb | lra].
  - apply Qlt_shift_div_r; [exact Hb | lra].
Qed.

Lemma normalize_cases (r s b : Q) (P : Q -> Prop) :
  ((r < s)%Q -> P (r + b)%Q) -> ((s <= r)%Q -> (s + b <= r)%Q -> P (r - b)%Q) ->
  ((s <= r)%Q -> (r < s + b)%Q -> P r) ->
  P (if Qltb r s then (r + b)%Q else if Qle_bool (s + b) r then (r - b)%Q else r).
Proof.
  intros C1 C2 C3. unfold Qltb.
  destruct (Qle_bool s r) eqn:E1; cbn [negb].
  - apply Qle_bool_iff in E1.
    destruct (Qle_bool (s + b) r) eqn:E2.
    + apply Qle_bool_iff in E2. apply C2; assumption.
    + apply C3; [exact E1 |]. apply Qnot_le_lt. rewrite <- Qle_bool_iff. congruence.
  - apply C1. apply Qnot_le_lt. rewrite <- Qle_bool_iff. congruence.
Qed.

Lemma normalize_range_aux (value start_at base : Q) :
  (0 < base)%Q -> (- base <= start_at <= 0)%Q ->
  (start_at <= normalize value start_at base < start_at + base)%Q.
Proof.
  intros Hb Hs. pose proof (f64_rem_bounds value base Hb) as R.
  unfold normalize. apply normalize_cases; intros; lra.
Qed.

Lemma normalize_shift_aux (value start_at base : Q) :
  exists k : Z, (normalize value start_at base == value + inject_Z k * base)%Q.
Proof.
  destruct (f64_rem_shift value base) as [k Hk].
  unfold normalize.
  apply (normalize_cases _ _ _ (fun r => exists k, (r == value + inject_Z k * base)%Q));
    intros.
  - exists (k + 1). rewrite inject_Z_plus, Hk. change (inject_Z 1) with 1%Q. ring.
  - exists (k - 1). unfold Z.sub. rewrite inject_Z_plus, inject_Z_opp, Hk.
    change (inject_Z 1) with 1%Q. ring.
  - exists k. exact Hk.
Qed.

Lemma normalize_fixed_aux (value start_at base : Q) :
  (0 < base)%Q -> (- base < start_at <= 0)%Q ->
  (start_at <= value < start_at + base)%Q ->
  (normalize value start_at base == value)%Q.
Proof.
  intros Hb Hs Hv.
  assert (E : (f64_rem value base == value)%Q) by (apply f64_rem_self; [exact Hb | lra]).
  unfold normalize. apply normalize_cases; intros; lra.
Qed.

(** [normalize value (-180) 360], the call the lookup and the cell
    enumeration make, lies in [[-180, 180)] and differs from [value] by a
    whole multiple of 360: it is the representative of [value] modulo 360
    in that interval. *)
Theorem normalize_range (value : Q) :
  (-180 <= normalize value (-180) 360 < 180)%Q /\
  exists k : Z, (normalize value (-180) 360 == value + inject_Z k * 360)%Q.
Proof.
  split; [| apply normalize_shift_aux].
  assert (R : (-180 <= normalize value (-180) 360 < -180 + 360)%Q)
    by (apply normalize_range_aux; [reflexivity | split; discriminate]).
  lra.
Qed.

Lemma normalize_range_witness :
  (-180 <= normalize 540 (-180) 360 < 180)%Q /\
  (normalize 540 (-180) 360 == -180)%Q.
Proof.
  split; [exact (proj1 (normalize_range 540)) | reflexivity].
Defined.

(** [normalize value (-180) 360] leaves a value of [[-180, 180)]
    unchanged, and normalizing twice is normalizing once. *)
Theorem normalize_idempotent (value : Q) :
  ((-180 <= value < 180)%Q -> (normalize value (-180) 360 == value)%Q) /\
  (normalize (normalize value (-180) 360) (-180) 360 == normalize value (-180) 360)%Q.
Proof.
  assert (Hb : (0 < 360)%Q) by reflexivity.
  assert (Hs : (- 360 < -180 <= 0)%Q) by (split; [reflexivity | discriminate]).
  split.
  - intros Hv. apply normalize_fixed_aux; [exact Hb | exact Hs | lra].
  - apply normalize_fixed_aux; [exact Hb | exact Hs |].
    apply normalize_range_aux; [exact Hb | lra].
Qed.

Lemma normalize_idempotent_witness :
  (normalize (normalize 190 (-180) 360) (-180) 360 == normalize 190 (-180) 360)%Q /\
  (normalize 190 (-180) 360 == -170)%Q.
Proof.
  split; [exact (proj2 (normalize_idempotent 190)) | reflexivity].
Defined.

(** ** Longitudes are periodic *)

Lemma normalize_congr_aux (a b start_at base : Q) (k : Z) :
  (0 < base)%Q -> (- base <= start_at <= 0)%Q ->
  (a == b + inject_Z k * base)%Q ->
  (normalize a start_at base == normalize b start_at base)%Q.
Proof.
  intros Hb Hs Hab.
  pose proof (normalize_range_aux a start_at base Hb Hs) as Ra.
  pose proof (normalize_range_aux b start_at base Hb Hs) as Rb.
  destruct (normalize_shift_aux a start_at base) as [ka Ha].
  destruct (normalize_shift_aux b start_at base) as [kb Hb'].
  set (na := normalize a start_at base) in *.
  set (nb := normalize b start_at base) in *.
  assert (D : (na - nb == inject_Z (k + ka - kb) * base)%Q).
  { rewrite Ha, Hb', Hab. unfold Z.sub. rewrite !inject_Z_plus, inject_Z_opp. ring. }
  destruct (Z.lt_trichotomy (k + ka - kb) 0) as [Hm | [Hm | Hm]].
  - assert (Hq : (inject_Z (k + ka - kb) <= -1)%Q)
      by (change (-1)%Q with (inject_Z (-1)); rewrite <- Zle_Qle; lia).
    assert (M : (inject_Z (k + ka - kb) * base <= -1 * base)%Q)
      by (apply Qmult_le_compat_r; lra).
    lra.
  - rewrite Hm in D. change (inject_Z 0) with 0%Q in D. lra.
  - assert (Hq : (1 <= inject_Z (k + ka - kb))%Q)
      by (change 1%Q with (inject_Z 1); rewrite <- Zle_Qle; lia).
    assert (M : (1 * base <= inject_Z (k + ka - kb) * base)%Q)
      by (apply Qmult_le_compat_r; lra).
    lra.
Qed.

Lemma longitude_to_cell_x_compat (cb : CountryBoundaries) (a b : Q) :
  (a == b)%Q -> longitude_to_cell_x cb a = longitude_to_cell_x cb b.
Proof.
  intros E. unfold longitude_to_cell_x. do 2 f_equal. apply Qfloor_comp. rewrite E. reflexivity.
Qed.

Lemma longitude_to_local_x_compat (cb : CountryBoundaries) (cx : Z) (a b : Q) :
  (a == b)%Q -> longitude_to_local_x cb cx a = longitude_to_local_x cb cx b.
Proof.
  intros E. unfold longitude_to_local_x. f_equal. apply Qfloor_comp. rewrite E. reflexivity.
Qed.

Lemma cell_and_local_point_shift (cb : CountryBoundaries) (lat lon : Q) (k : Z) :
  cell_and_local_point cb (mkLatLon lat (lon + inject_Z k * 360)) =
  cell_and_local_point cb (mkLatLon lat lon).
Proof.
  assert (E : (normalize (lon + inject_Z k * 360) (-180) 360 == normalize lon (-180) 360)%Q).
  { apply (normalize_congr_aux _ _ _ _ k); [reflexivity | split; discriminate | reflexivity]. }
  unfold cell_and_local_point; cbn [longitude latitude].
  rewrite (longitude_to_cell_x_compat cb _ _ E), (longitude_to_local_x_compat cb _ _ _ E).
  reflexivity.
Qed.

(** Positions whose longitudes differ by a whole multiple of 360 degrees
    resolve to the same cell and local point, so [is_in], [is_in_any] and
    [ids] answer identically for them. *)
Theorem longitude_periodic (oc : bool) (cb : CountryBoundaries) (lat lon : Q) (k : Z) :
  let pos' := mkLatLon lat (lon + inject_Z k * 360) in
  let pos := mkLatLon lat lon in
  cell_and_local_point cb pos' = cell_and_local_point cb pos /\
  (forall id, is_in oc cb pos' id = is_in oc cb pos id) /\
  (forall ids' : gset string, is_in_any oc cb pos' ids' = is_in_any oc cb pos ids') /\
  ids oc cb pos' = ids oc cb pos.
Proof.
  intros pos' pos. pose proof (cell_and_local_point_shift cb lat lon k) as E.
  unfold is_in, is_in_any, ids. subst pos pos'. rewrite E. repeat split; reflexivity.
Qed.

(** ** The sets returned for a bounding box *)

Lemma containing_loop_later (acc : gset string) (cs : list Cell) (id : string) :
  id ∈ containing_loop false acc cs <->
  id ∈ acc /\ Forall (fun c => id ∈ Cell.containing_ids c) cs.
Proof.
  revert acc. induction cs as [| c cs IH]; intros acc; cbn [containing_loop].
  - split; [intros H; split; [exact H | constructor] | intros [H _]; exact H].
  - rewrite IH, elem_of_filter, Forall_cons. tauto.
Qed.

Lemma containing_loop_first (cs : list Cell) (id : string) :
  id ∈ containing_loop true ∅ cs <->
  cs <> [] /\ Forall (fun c => id ∈ Cell.containing_ids c) cs.
Proof.
  destruct cs as [| c cs]; cbn [containing_loop].
  - split; [set_solver | intros [[] _]; reflexivity].
  - rewrite containing_loop_later, Forall_cons, elem_of_union, elem_of_list_to_set.
    split; [intros [[H | H] Hf]; [set_solver | split; [discriminate | tauto]] |].
    intros [_ [H Hf]]. tauto.
Qed.

Lemma intersecting_fold (acc : gset string) (cs : list Cell) (id : string) :
  id ∈ foldl (fun acc c => acc ∪ list_to_set (Cell.get_all_ids c)) acc cs <->
  id ∈ acc \/ Exists (fun c => id ∈ Cell.get_all_ids c) cs.
Proof.
  revert acc. induction cs as [| c cs IH]; intros acc; cbn [foldl].
  - rewrite Exists_nil. tauto.
  - rewrite IH, Exists_cons, elem_of_union, elem_of_list_to_set. tauto.
Qed.

(** [containing_ids] is the intersection over the visited cells of their
    containing ids: an id is in the result exactly when at least one cell
    is visited and every visited cell lists it as containing. *)
Theorem containing_ids_intersection (oc : bool) (cb : CountryBoundaries) (bounds : BoundingBox)
    (S : gset string) (H : containing_ids oc cb bounds = Some S) :
  exists cs, visited_cells oc cb bounds = Some cs /\
    forall id, id ∈ S <-> cs <> [] /\ Forall (fun c => id ∈ Cell.containing_ids c) cs.
Proof.
  unfold containing_ids in H.
  destruct (visited_cells oc cb bounds) as [cs |]; cbn in H; [| discriminate].
  injection H as <-. exists cs. split; [reflexivity |]. intros id. apply containing_loop_first.
Qed.


(** Every id [containing_ids] returns for a box is also returned by
    [intersecting_ids] for the same box. *)
Theorem containing_subset_intersecting (oc : bool) (cb : CountryBoundaries) (bounds : BoundingBox)
    (S1 S2 : gset string)
    (H1 : containing_ids oc cb bounds = Some S1) (H2 : intersecting_ids oc cb bounds = Some S2) :
  S1 ⊆ S2.
Proof.
  unfold containing_ids in H1. unfold intersecting_ids in H2.
  destruct (visited_cells oc cb bounds) as [cs |]; cbn in H1, H2; [| discriminate].
  injection H1 as <-. injection H2 as <-. intros id Hid.
  apply containing_loop_first in Hid as [Hne Hall].
  apply intersecting_fold. right.
  destruct cs as [| c cs]; [congruence |]. apply Exists_cons_hd.
  apply Forall_cons in Hall as [Hc _]. unfold Cell.get_all_ids. set_solver.
Qed.

(** [longitude_to_cell_x] is monotone: a longitude further east never maps
    to a column further west. *)
Theorem longitude_to_cell_x_monotone (cb : CountryBoundaries) (lon1 lon2 : Q)
    (Hw : 0 <= raster_width cb) (Hl : (lon1 <= lon2)%Q) :
  longitude_to_cell_x cb lon1 <= longitude_to_cell_x cb lon2.
Proof.
  unfold longitude_to_cell_x, f64_to_usize.
  assert (Qfloor (inject_Z (raster_width cb) * (180 + lon1) / 360)
          <= Qfloor (inject_Z (raster_width cb) * (180 + lon2) / 360)).
  { apply Qfloor_resp_le. unfold Qdiv. apply Qmult_le_compat_r; [| discriminate].
    rewrite !(Qmult_comm (inject_Z _)). apply Qmult_le_compat_r; [lra |].
    change 0%Q with (inject_Z 0). rewrite <- Zle_Qle. exact Hw. }
  lia.
Qed.

(** ** The cell enumeration visits each position once *)

Lemma visited_positions_column_major (oc : bool) (cb : CountryBoundaries) (h : Z)
    (bounds : BoundingBox)
    (Hw : 1 <= raster_width cb) (Hh : 1 <= h)
    (Hlen : Z.of_nat (length (raster cb)) = raster_width cb * h)
    (Hlat : (-90 <= min_latitude bounds <= max_latitude bounds)%Q) :
  let min_x := longitude_to_cell_x cb (normalize (min_longitude bounds) (-180) 360) in
  let max_x := longitude_to_cell_x cb (normalize (max_longitude bounds) (-180) 360) in
  let min_y := latitude_to_cell_y cb (max_latitude bounds) in
  let max_y := latitude_to_cell_y cb (min_latitude bounds) in
  let steps_x := if max_x <? min_x then raster_width cb - min_x + max_x else max_x - min_x in
  0 <= steps_x <= raster_width cb - 1 /\ 0 <= max_y - min_y /\
  visited_positions oc cb bounds
  = Some (column_major (raster_width cb) min_x min_y steps_x (max_y - min_y)).
Proof.
  intros min_x max_x min_y max_y steps_x.
  pose proof (cell_x_range cb (normalize (min_longitude bounds) (-180) 360) Hw) as Rx1.
  pose proof (cell_x_range cb (normalize (max_longitude bounds) (-180) 360) Hw) as Rx2.
  fold min_x in Rx1. fold max_x in Rx2.
  pose proof (cell_y_range cb h (max_latitude bounds) Hw Hh Hlen ltac:(lra)) as Ry1.
  pose proof (cell_y_range cb h (min_latitude bounds) Hw Hh Hlen ltac:(lra)) as Ry2.
  pose proof (cell_y_antitone cb h _ _ Hw Hh Hlen (proj2 Hlat)) as Mono.
  fold min_y in Ry1, Mono. fold max_y in Ry2, Mono.
  assert (Sx : 0 <= steps_x <= raster_width cb - 1)
    by (unfold steps_x; destruct (Z.ltb_spec max_x min_x); lia).
  set (it := mkCellsIter min_x min_y steps_x (max_y - min_y) 0 0).
  assert (Hc : cells oc cb bounds = Some it).
  { unfold cells, usize_sub. fold min_x max_x min_y max_y.
    rewrite (proj2 (Z.leb_le min_y max_y)) by lia. reflexivity. }
  split; [exact Sx |]. split; [lia |].
  unfold visited_positions. rewrite Hc. cbn [mbind option_bind].
  apply collect_run.
  apply run_cells; [lia | lia | | lia].
  intros xs ys Hxs Hys.
  pose proof (Z.mod_pos_bound (min_x + xs) (raster_width cb) ltac:(lia)). nia.
Qed.

Lemma NoDup_map_on {A B} (f : A -> B) (l : list A) :
  (forall a b, a ∈ l -> b ∈ l -> f a = f b -> a = b) -> NoDup l -> NoDup (map f l).
Proof.
  intros Hinj Hl. induction Hl as [| a l Ha Hl IH]; cbn [map]; constructor.
  - intros Hm. apply list_elem_of_In, in_map_iff in Hm as [b [Hfb Hin]].
    apply list_elem_of_In in Hin.
    assert (b = a) as -> by (apply Hinj; [apply elem_of_cons; tauto .. | exact Hfb]).
    contradiction.
  - apply IH. intros a' b' Ha' Hb'. apply Hinj; apply elem_of_cons; tauto.
Qed.

Lemma mod_inj_small (w a b : Z) :
  1 <= w -> 0 <= a < w -> 0 <= b < w -> forall m, (m + a) mod w = (m + b) mod w -> a = b.
Proof.
  intros Hw Ha Hb m E.
  pose proof (Z.div_mod (m + a) w ltac:(lia)) as Da.
  pose proof (Z.div_mod (m + b) w ltac:(lia)) as Db.
  rewrite E in Da.
  destruct (Z.lt_trichotomy ((m + a) / w) ((m + b) / w)) as [L | [L | L]]; [| lia |].
  - assert (w * ((m + a) / w) + w <= w * ((m + b) / w)) by nia. lia.
  - assert (w * ((m + b) / w) + w <= w * ((m + a) / w)) by nia. lia.
Qed.

Lemma column_major_NoDup (w min_x min_y steps_x steps_y : Z) :
  1 <= w -> steps_x <= w - 1 ->
  NoDup (column_major w min_x min_y steps_x steps_y).
Proof.
  intros Hw Hs. unfold column_major.
  apply NoDup_bind; [| | apply NoDup_seqZ].
  - intros xs1 xs2 k H1 H2 K1 K2.
    apply elem_of_seqZ in H1, H2.
    apply list_elem_of_In, in_map_iff in K1 as [ys1 [E1 _]].
    apply list_elem_of_In, in_map_iff in K2 as [ys2 [E2 _]].
    pose proof (Z.mod_pos_bound (min_x + xs1) w ltac:(lia)).
    pose proof (Z.mod_pos_bound (min_x + xs2) w ltac:(lia)).
    assert (Em : (min_x + xs1) mod w = (min_x + xs2) mod w).
    { rewrite <- E2 in E1.
      assert (Q1 : ((min_y + ys1) * w + (min_x + xs1) mod w) mod w = (min_x + xs1) mod w)
        by (rewrite Z.add_comm, Z.mod_add, Z.mod_mod; lia).
      assert (Q2 : ((min_y + ys2) * w + (min_x + xs2) mod w) mod w = (min_x + xs2) mod w)
        by (rewrite Z.add_comm, Z.mod_add, Z.mod_mod; lia).
      congruence. }
    apply (mod_inj_small w xs1 xs2 Hw ltac:(lia) ltac:(lia) min_x Em).
  - intros xs _. apply NoDup_map_on; [| apply NoDup_seqZ].
    intros ys1 ys2 _ _ E.
    pose proof (Z.mod_pos_bound (min_x + xs) w ltac:(lia)). nia.
Qed.

(** The loop [for cell in self.cells(bounds)] never visits a raster
    position twice (for a box whose southern latitude is at least -90 and
    at most its northern one, on a raster of width [w] >= 1 and [w * h]
    cells): the column range, even when it wraps around the antimeridian,
    spans at most [w] columns. *)
Theorem visited_positions_NoDup (oc : bool) (cb : CountryBoundaries) (h : Z)
    (bounds : BoundingBox)
    (Hw : 1 <= raster_width cb) (Hh : 1 <= h)
    (Hlen : Z.of_nat (length (raster cb)) = raster_width cb * h)
    (Hlat : (-90 <= min_latitude bounds <= max_latitude bounds)%Q) :
  exists ks, visited_positions oc cb bounds = Some ks /\ NoDup ks.
Proof.
  destruct (visited_positions_column_major oc cb h bounds Hw Hh Hlen Hlat)
    as (Sx & _ & E).
  eexists. split; [exact E |]. apply column_major_NoDup; lia.
Qed.

(** [latitude_to_cell_y] is antitone (on a raster of width [w] >= 1 and
    [w * h] cells): a latitude further north never maps to a row further
    south. *)
Theorem latitude_to_cell_y_antitone (cb : CountryBoundaries) (h : Z) (lat1 lat2 : Q)
    (Hw : 1 <= raster_width cb) (Hh : 1 <= h)
    (Hlen : Z.of_nat (length (raster cb)) = raster_width cb * h)
    (Hl : (lat1 <= lat2)%Q) :
  latitude_to_cell_y cb lat2 <= latitude_to_cell_y cb lat1.
Proof. exact (cell_y_antitone cb h lat1 lat2 Hw Hh Hlen Hl). Qed.

(** ** Witnesses *)

Lemma containing_ids_intersection_witness :
  containing_ids true world_2x2 box_in_b = Some {[ "B" ]} /\
  exists cs, visited_cells true world_2x2 box_in_b = Some cs /\
    forall id, id ∈ ({[ "B" ]} : gset string) <->
      cs <> [] /\ Forall (fun c => id ∈ Cell.containing_ids c) cs.
Proof.
  assert (H : containing_ids true world_2x2 box_in_b = Some {[ "B" ]})
    by (vm_compute; reflexivity).
  split; [exact H | exact (containing_ids_intersection true world_2x2 box_in_b _ H)].
Defined.


Lemma containing_subset_intersecting_witness :
  containing_ids true world_2x2 box_in_b = Some {[ "B" ]} /\
  intersecting_ids true world_2x2 box_in_b = Some {[ "B" ]} /\
  ({[ "B" ]} : gset string) ⊆ {[ "B" ]}.
Proof.
  assert (H1 : containing_ids true world_2x2 box_in_b = Some {[ "B" ]})
    by (vm_compute; reflexivity).
  assert (H2 : intersecting_ids true world_2x2 box_in_b = Some {[ "B" ]})
    by (vm_compute; reflexivity).
  split; [exact H1 |]. split; [exact H2 |].
  exact (containing_subset_intersecting true world_2x2 box_in_b _ _ H1 H2).
Defined.

Lemma longitude_to_cell_x_monotone_witness :
  0 <= raster_width world_2x2 /\ (-90 <= 10)%Q /\
  longitude_to_cell_x world_2x2 (-90) <= longitude_to_cell_x world_2x2 10 /\
  longitude_to_cell_x world_2x2 (-90) = 0 /\ longitude_to_cell_x world_2x2 10 = 1.
Proof.
  assert (Hw : 0 <= raster_width world_2x2) by (vm_compute; discriminate).
  assert (Hl : (-90 <= 10)%Q) by discriminate.
  split; [exact Hw |]. split; [exact Hl |].
  split; [exact (longitude_to_cell_x_monotone world_2x2 (-90) 10 Hw Hl) |].
  split; vm_compute; reflexivity.
Defined.

Lemma latitude_to_cell_y_antitone_witness :
  1 <= raster_width world_2x2 /\ 1 <= 2 /\
  Z.of_nat (length (raster world_2x2)) = raster_width world_2x2 * 2 /\ (-10 <= 10)%Q /\
  latitude_to_cell_y world_2x2 10 <= latitude_to_cell_y world_2x2 (-10) /\
  latitude_to_cell_y world_2x2 10 = 0 /\ latitude_to_cell_y world_2x2 (-10) = 1.
Proof.
  assert (Hw : 1 <= raster_width world_2x2) by (vm_compute; discriminate).
  assert (Hh : 1 <= 2) by lia.
  assert (Hlen : Z.of_nat (length (raster world_2x2)) = raster_width world_2x2 * 2)
    by reflexivity.
  assert (Hl : (-10 <= 10)%Q) by discriminate.
  split; [exact Hw |]. split; [exact Hh |]. split; [exact Hlen |]. split; [exact Hl |].
  split; [exact (latitude_to_cell_y_antitone world_2x2 2 (-10) 10 Hw Hh Hlen Hl) |].
  split; vm_compute; reflexivity.
Defined.

Lemma visited_positions_NoDup_witness :
  1 <= raster_width world_2x2 /\ 1 <= 2 /\
  Z.of_nat (length (raster world_2x2)) = raster_width world_2x2 * 2 /\
  (-90 <= min_latitude whole_world <= max_latitude whole_world)%Q /\
  (exists ks, visited_positions true world_2x2 whole_world = Some ks /\ NoDup ks) /\
  visited_positions true world_2x2 whole_world = Some [0; 2].
Proof.
  assert (Hw : 1 <= raster_width world_2x2) by (vm_compute; discriminate).
  assert (Hh : 1 <= 2) by lia.
  assert (Hlen : Z.of_nat (length (raster world_2x2)) = raster_width world_2x2 * 2)
    by reflexivity.
  assert (Ha : (-90 <= min_latitude whole_world <= max_latitude whole_world)%Q)
    by (split; vm_compute; discriminate).
  split; [exact Hw |]. split; [exact Hh |]. split; [exact Hlen |]. split; [exact Ha |].
  split; [exact (visited_positions_NoDup true world_2x2 2 whole_world Hw Hh Hlen Ha) |].
  vm_compute. reflexivity.
Defined.
